(** * LaVolunteering: the scraper's row extraction and loader, and the
      zip-code aggregation and boundary join of the map generator.

    The development embeds [src/visualize.py], [src/scraper.py] and the
    constants of [src/config.py] they use, and proves the properties of
    the specification about them. *)

From Stdlib Require Import Ascii String.
From stdpp Require Import gmap list strings sets sorting.

Local Open Scope nat_scope.

(** ** Python text

    A Python [str] is a sequence of Unicode code points.  The character
    classes of [re] ([\d], [\w]), [str.isspace] (used by [str.strip]) and
    [str.lower] are tables of the interpreter, not of this repository;
    they are taken as an interface. *)

Abbreviation pystr := (list N).

Class CharTables := {
  is_digit : N → bool;        (* re: \d on str patterns *)
  is_word : N → bool;         (* re: \w on str patterns *)
  is_space : N → bool;        (* str.isspace, one code point *)
  lower : pystr → pystr;      (* str.lower *)
}.

(** In Python every [\d] character is a [\w] character. *)
Definition digits_are_word `{CharTables} : Prop :=
  ∀ c, is_digit c = true → is_word c = true.

(** A string literal of the source (ASCII). *)
Definition lit (s : string) : pystr :=
  (λ a, N_of_ascii a) <$> list_ascii_of_string s.

(** The tables on the ASCII range, where they are fixed by the language
    reference: digits 0-9, word characters [A-Za-z0-9_], the six ASCII
    white-space characters and the separators 0x1c-0x1f, and lower-casing
    of A-Z. *)
Definition ascii_digit (c : N) : bool := (48 <=? c)%N && (c <=? 57)%N.
Definition ascii_upper (c : N) : bool := (65 <=? c)%N && (c <=? 90)%N.
Definition ascii_lower (c : N) : bool := (97 <=? c)%N && (c <=? 122)%N.
Definition ascii_alnum (c : N) : bool :=
  ascii_digit c || ascii_upper c || ascii_lower c.
Definition ascii_word (c : N) : bool := ascii_alnum c || (c =? 95)%N.
Definition ascii_space (c : N) : bool :=
  ((9 <=? c)%N && (c <=? 13)%N) || ((28 <=? c)%N && (c <=? 32)%N).
Definition ascii_tolower (c : N) : N :=
  if ascii_upper c then (c + 32)%N else c.

Definition ascii_tables : CharTables := {|
  is_digit := ascii_digit;
  is_word := ascii_word;
  is_space := ascii_space;
  lower := fmap ascii_tolower;
|}.

(** ** String operations of the source *)

(** [s.startswith(p)] *)
Fixpoint startswith (s p : pystr) : bool :=
  match p, s with
  | [], _ => true
  | _ :: _, [] => false
  | a :: p', b :: s' => bool_decide (a = b) && startswith s' p'
  end.

(** [needle in hay] on strings *)
Fixpoint contains (needle hay : pystr) : bool :=
  startswith hay needle ||
  match hay with
  | [] => false
  | _ :: hay' => contains needle hay'
  end.

(** [x or ""] on an optional string *)
Definition or_empty (x : option pystr) : pystr :=
  match x with
  | Some (c :: s) => c :: s
  | _ => []
  end.

(** Truth value of a string. *)
Definition truthy (s : pystr) : bool :=
  match s with [] => false | _ :: _ => true end.

(** The first position of a list at which [f] answers. *)
Fixpoint first_match {A B} (f : A → option B) (l : list A) : option B :=
  match l with
  | [] => None
  | x :: l' =>
      match f x with
      | Some y => Some y
      | None => first_match f l'
      end
  end.

Section Text.
Context `{CharTables}.

(** [s.strip()] *)
Fixpoint lstrip (s : pystr) : pystr :=
  match s with
  | [] => []
  | c :: s' => if is_space c then lstrip s' else s
  end.

Definition strip (s : pystr) : pystr := reverse (lstrip (reverse (lstrip s))).

(** ** [ZIP_RE = re.compile(r"\b(\d{5})\b")]

    The pattern has one way to match at a position: the assertion [\b],
    five [\d] characters (group 1), the assertion [\b].  [\b] holds at a
    position when exactly one of the characters before and after it is a
    word character, a missing character counting as a non-word one. *)

Definition word_before (s : pystr) (i : nat) : bool :=
  match i with
  | 0 => false
  | S j => from_option is_word false (s !! j)
  end.

Definition word_here (s : pystr) (i : nat) : bool :=
  from_option is_word false (s !! i).

Definition at_boundary (s : pystr) (i : nat) : bool :=
  xorb (word_before s i) (word_here s i).

(** Group 1 of a match starting at [i], if the pattern matches there. *)
Definition ZIP_RE_match_at (s : pystr) (i : nat) : option pystr :=
  let g := take 5 (drop i s) in
  if at_boundary s i && bool_decide (length g = 5) && forallb is_digit g
     && at_boundary s (i + 5)
  then Some g else None.

(** [ZIP_RE.search(s)]: the match at the leftmost position that has one. *)
Definition ZIP_RE_search (s : pystr) : option pystr :=
  first_match (ZIP_RE_match_at s) (seq 0 (S (length s))).

(** [ZIP_RE.fullmatch(s)]: a match at position 0 that ends at the end. *)
Definition ZIP_RE_fullmatch (s : pystr) : option pystr :=
  match ZIP_RE_match_at s 0 with
  | Some g => if bool_decide (length s = 5) then Some g else None
  | None => None
  end.

(** ** [extract_zipcode] *)
Definition extract_zipcode (location : option pystr) : option pystr :=
  match ZIP_RE_search (or_empty location) with
  | Some g => Some g
  | None => None
  end.

(** ** [group_by_zip]

    A row of [csv.DictReader] maps the column names to the cell text, or to
    [None] for a column the line is too short for (the cells of a line
    that is too long are kept under the key [None], which nothing here
    reads).  The function is embedded on the rows the reader yields. *)

Abbreviation row := (gmap pystr (option pystr)).

(** [d.get(k, dflt)] *)
Definition dict_get {V} (d : gmap pystr V) (k : pystr) (dflt : V) : V :=
  default dflt (d !! k).

(** [d.setdefault(k, []).append(x)] *)
Definition setdefault_append {V} (d : gmap pystr (list V)) (k : pystr) (x : V)
  : gmap pystr (list V) :=
  <[k := default [] (d !! k) ++ [x]]> d.

Definition group_step (acc : gmap pystr (list row) * list row) (r : row)
  : gmap pystr (list row) * list row :=
  let zc := extract_zipcode (dict_get r (lit "location") (Some [])) in
  match zc with
  | Some z =>
      if truthy z then (setdefault_append acc.1 z r, acc.2)
      else (acc.1, acc.2 ++ [r])
  | None => (acc.1, acc.2 ++ [r])
  end.

Definition group_by_zip (rows : list row) : gmap pystr (list row) * list row :=
  foldl group_step (∅, []) rows.

End Text.

Abbreviation row := (gmap pystr (option pystr)).


(** ** Exceptions

    Code that can raise returns a [result]. *)

Inductive exn :=
| ValueError (available : list pystr)  (* "Cannot find zip code property." *)
| KeyError (key : pystr)               (* d[key] on a missing key *)
| AttributeError                       (* .get on a value that is no dict *)
| PlaywrightError (what : pystr).      (* raised by a browser operation *)

Inductive result (A : Type) :=
| Ok (a : A)
| Raise (e : exn).
Arguments Ok {A} a.
Arguments Raise {A} e.

Definition bind {A B} (m : result A) (f : A → result B) : result B :=
  match m with
  | Ok a => f a
  | Raise e => Raise e
  end.

Notation "'let*' x ':=' m 'in' k" := (bind m (fun x => k))
  (at level 10, x name, m at level 200, k at level 200).

Definition is_Ok {A} (r : result A) : Prop := ∃ a, r = Ok a.

(** [[f(x) for x in l]] where [f] can raise: the first exception wins. *)
Fixpoint map_result {A B} (f : A → result B) (l : list A) : result (list B) :=
  match l with
  | [] => Ok []
  | x :: l' => let* y := f x in let* ys := map_result f l' in Ok (y :: ys)
  end.

(** [d[k]] on a row *)
Definition subscript {V} (d : gmap pystr V) (k : pystr) : result V :=
  match d !! k with
  | Some v => Ok v
  | None => Raise (KeyError k)
  end.

(** ** Boundary features

    The boundary data is parsed JSON.  A value of a [properties] object is
    used in three ways only: [isinstance(val, str)], [ZIP_RE.fullmatch(val)]
    and [str(val)]; a value that is not a string is represented by what
    [str] returns for it.  A [properties] object is a dict in insertion
    order.  A feature may lack the member [properties] or have one that is
    not an object ([null]), and may lack the member [geometry]. *)

Inductive jvalue :=
| JStr (s : pystr)
| JOther (shown : pystr).

Definition py_str (v : jvalue) : pystr :=
  match v with
  | JStr s => s
  | JOther shown => shown
  end.

Abbreviation props := (list (pystr * jvalue)).

Inductive props_member :=
| PropsMissing
| PropsNotDict
| PropsDict (p : props).

Record feature {G : Type} := {
  f_properties : props_member;
  f_geometry : option G;
}.
Arguments feature G : clear implicits.

(** [p.get(k, dflt)] on a dict in insertion order *)
Fixpoint props_get (p : props) (k : pystr) (dflt : jvalue) : jvalue :=
  match p with
  | [] => dflt
  | (k', v) :: p' => if bool_decide (k' = k) then v else props_get p' k dflt
  end.

(** The joined features. *)
Record summary := {
  s_title : option pystr;
  s_organization : option pystr;
  s_date : option pystr;
  s_time : option pystr;
  s_type : option pystr;
  s_url : option pystr;
}.

Record joined_feature {G : Type} := {
  j_geometry : G;
  j_zipcode : pystr;
  j_count : nat;
  j_opportunities : list summary;
}.
Arguments joined_feature G : clear implicits.

(** The order of Python on [str]: code point by code point, a proper
    prefix before its extensions. *)
Fixpoint str_leb (a b : pystr) : bool :=
  match a, b with
  | [], _ => true
  | _ :: _, [] => false
  | x :: a', y :: b' =>
      if (x <? y)%N then true
      else if (y <? x)%N then false
      else str_leb a' b'
  end.

Definition str_le (a b : pystr) : Prop := str_leb a b = true.

#[global] Instance str_le_dec : RelDecision str_le.
Proof. intros a b. unfold str_le. apply _. Defined.

(** [sorted] on strings: the ascending arrangement of its argument.  It is
    applied to the elements of a set only, which are distinct, so the
    result is the same for every sorting algorithm. *)
Definition py_sorted (l : list pystr) : list pystr := merge_sort str_le l.

(** What [build_choropleth_geojson] returns and prints: the feature
    collection, and the two figures of the warning when it is printed,
    [len(unmatched)] and [sorted(unmatched)[:10]]. *)
Record join_output {G : Type} := {
  features : list (joined_feature G);
  warning : option (nat * list pystr);
}.
Arguments join_output G : clear implicits.

Section Matcher.
Context `{CharTables} {G : Type}.

(** [isinstance(val, str) and ZIP_RE.fullmatch(val)] *)
Definition is_zip_value (val : jvalue) : bool :=
  match val with
  | JStr s => bool_decide (is_Some (ZIP_RE_fullmatch s))
  | JOther _ => false
  end.

Definition candidates : list pystr :=
  [lit "ZCTA5CE10"; lit "ZCTA5CE20"; lit "ZIP"; lit "ZIPCODE"; lit "zip";
   lit "GEOID10"; lit "GEOID20"].

(** The two loops of [_find_zip_property] on a [properties] dict. *)
Fixpoint find_candidate (p : props) (keys : list pystr) : option pystr :=
  match keys with
  | [] => None
  | key :: keys' =>
      if is_zip_value (props_get p key (JStr [])) then Some key
      else find_candidate p keys'
  end.

Fixpoint find_item (items : props) : option pystr :=
  match items with
  | [] => None
  | (key, val) :: items' =>
      if is_zip_value val then Some key else find_item items'
  end.

(** [_find_zip_property] *)
Definition _find_zip_property (feat : feature G) : result (option pystr) :=
  match f_properties feat with
  | PropsNotDict => Raise AttributeError
  | PropsMissing => Ok None
  | PropsDict p =>
      match find_candidate p candidates with
      | Some key => Ok (Some key)
      | None => Ok (find_item p)
      end
  end.

(** The detection loop of [build_choropleth_geojson] over
    [boundaries["features"][:5]]; [zip_key] is the variable of the source. *)
Fixpoint detect_zip_key (feats : list (feature G)) (zip_key : option pystr)
  : result (option pystr) :=
  match feats with
  | [] => Ok zip_key
  | feat :: feats' =>
      let* zip_key := _find_zip_property feat in
      if truthy (or_empty zip_key) then Ok zip_key
      else detect_zip_key feats' zip_key
  end.

(** [feature["properties"]] followed by [.get] *)
Definition properties_of (feat : feature G) : result props :=
  match f_properties feat with
  | PropsMissing => Raise (KeyError (lit "properties"))
  | PropsNotDict => Raise AttributeError
  | PropsDict p => Ok p
  end.

(** [feature["geometry"]] *)
Definition geometry_of (feat : feature G) : result G :=
  match f_geometry feat with
  | Some g => Ok g
  | None => Raise (KeyError (lit "geometry"))
  end.

(** [list(boundaries["features"][0]["properties"].keys()) if
    boundaries["features"] else []] *)
Definition sample_keys (feats : list (feature G)) : result (list pystr) :=
  match feats with
  | [] => Ok []
  | feat :: _ => let* p := properties_of feat in Ok (fst <$> p)
  end.

(** The summary of one record in a joined feature. *)
Definition summarize (o : row) : result summary :=
  let* title := subscript o (lit "title") in
  let* organization := subscript o (lit "organization") in
  Ok {| s_title := title;
        s_organization := organization;
        s_date := dict_get o (lit "date") (Some []);
        s_time := dict_get o (lit "time") (Some []);
        s_type := dict_get o (lit "opportunity_type") (Some []);
        s_url := dict_get o (lit "opportunity_url") (Some []) |}.

(** The body of the join loop: the joined feature appended for [feat], if
    any, and the zip code added to [matched]. *)
Definition join_feature (by_zip : gmap pystr (list row)) (zip_key : pystr)
    (feat : feature G) : result (option (joined_feature G)) :=
  let* p := properties_of feat in
  let zc := py_str (props_get p zip_key (JStr [])) in
  match by_zip !! zc with
  | Some opps =>
      let* geometry := geometry_of feat in
      let* opportunities := map_result summarize opps in
      Ok (Some {| j_geometry := geometry;
                  j_zipcode := zc;
                  j_count := length opps;
                  j_opportunities := opportunities |})
  | None => Ok None
  end.

Fixpoint join_loop (by_zip : gmap pystr (list row)) (zip_key : pystr)
    (feats : list (feature G))
    (acc : list (joined_feature G) * gset pystr)
  : result (list (joined_feature G) * gset pystr) :=
  match feats with
  | [] => Ok acc
  | feat :: feats' =>
      let* j := join_feature by_zip zip_key feat in
      match j with
      | Some jf => join_loop by_zip zip_key feats' (acc.1 ++ [jf], {[j_zipcode jf]} ∪ acc.2)
      | None => join_loop by_zip zip_key feats' acc
      end
  end.

(** [build_choropleth_geojson]; [boundaries] is [boundaries["features"]]. *)
Definition build_choropleth_geojson (by_zip : gmap pystr (list row))
    (boundaries : list (feature G)) : result (join_output G) :=
  let* zip_key := detect_zip_key (take 5 boundaries) None in
  if negb (truthy (or_empty zip_key)) then
    let* sample := sample_keys boundaries in
    Raise (ValueError sample)
  else
    let* r := join_loop by_zip (or_empty zip_key) boundaries ([], ∅) in
    let unmatched := dom by_zip ∖ r.2 in
    Ok {| features := r.1;
          warning :=
            if decide (unmatched = ∅) then None
            else Some (size unmatched, take 10 (py_sorted (elements unmatched))) |}.

End Matcher.

(** ** [generate_html]

    The function fills the placeholders of [HTML_TEMPLATE]; it is embedded
    as the values it computes for them, before they are rendered as text. *)

Record virtual_summary := {
  v_title : option pystr;
  v_organization : option pystr;
  v_date : option pystr;
  v_type : option pystr;
  v_url : option pystr;
}.

Record html_data {G : Type} := {
  geojson_data : list (joined_feature G);
  virtual_data : list virtual_summary;
  total_mapped : nat;
  total_zips : nat;
  virtual_count : nat;
  max_count : nat;
}.
Arguments html_data G : clear implicits.

(** [max(xs, default=d)] *)
Definition py_max (xs : list nat) (default : nat) : nat :=
  match xs with
  | [] => default
  | x :: xs' => foldl Nat.max x xs'
  end.

(** [sum(xs)] *)
Definition py_sum (xs : list nat) : nat := foldl Nat.add 0 xs.

Definition virtual_entry (o : row) : result virtual_summary :=
  let* title := subscript o (lit "title") in
  let* organization := subscript o (lit "organization") in
  Ok {| v_title := title;
        v_organization := organization;
        v_date := dict_get o (lit "date") (Some []);
        v_type := dict_get o (lit "opportunity_type") (Some []);
        v_url := dict_get o (lit "opportunity_url") (Some []) |}.

Definition generate_html {G} (geojson : list (joined_feature G))
    (virtual_opps : list row) : result (html_data G) :=
  let* virtual_list := map_result virtual_entry virtual_opps in
  let total_mapped := py_sum (j_count <$> geojson) in
  let total_zips := length geojson in
  let virtual_count := length virtual_opps in
  let max_count := py_max (j_count <$> geojson) 1 in
  Ok {| geojson_data := geojson;
        virtual_data := virtual_list;
        total_mapped := total_mapped;
        total_zips := total_zips;
        virtual_count := virtual_count;
        max_count := max_count |}.

(** ** The field extractor ([scraper.py])

    Constants of [config.py]. *)

Definition BASE_URL : pystr := lit "https://volunteer.laworks.com".

(** [OPP_TYPE_CLASSES], in the order of the dict. *)
Definition OPP_TYPE_CLASSES : list (pystr * pystr) :=
  [(lit "blue-key", lit "Volunteer Opportunity");
   (lit "green-key", lit "Special Event");
   (lit "light-gray-key", lit "Already Filled");
   (lit "yellow-key", lit "Training")].

Definition MAX_LOAD_MORE_CLICKS : nat := 20.

(** [models.Opportunity] *)
Record Opportunity := {
  title : pystr;
  organization : pystr;
  location : pystr;
  date : option pystr;
  time : option pystr;
  duration : option pystr;
  datetime_iso : option pystr;
  distance : option pystr;
  opportunity_type : pystr;
  opportunity_url : option pystr;
  opportunity_id : option pystr;
  organization_url : option pystr;
  scraped_at : pystr;
}.

(** What the browser answers to each read [_extract_row] makes on a row;
    every read can raise (no element, several elements, timeout). *)
Record row_dom := {
  opp_link_inner_text : result pystr;
  opp_link_href : result (option pystr);
  opp_link_class : result (option pystr);
  org_link_inner_text : result pystr;
  org_link_href : result (option pystr);
  where_cell_inner_text : result pystr;
  time_cell_data_order : result (option pystr);
  date_el_count : result nat;
  date_el_inner_text : result pystr;
  time_el_count : result nat;
  time_el_inner_text : result pystr;
  dur_el_count : result nat;
  dur_el_inner_text : result pystr;
  time_cell_inner_text : result pystr;
  dist_cell_inner_text : result pystr;
}.

(** [re.search(r"/opportunity/([a-zA-Z0-9]+)", href)]: the literal, then
    the longest run of ASCII letters and digits, which must not be empty. *)
Fixpoint take_while {A} (f : A → bool) (l : list A) : list A :=
  match l with
  | [] => []
  | x :: l' => if f x then x :: take_while f l' else []
  end.

Definition ID_RE_match_at (s : pystr) (i : nat) : option pystr :=
  let rest := drop i s in
  if startswith rest (lit "/opportunity/") then
    let g := take_while ascii_alnum (drop (length (lit "/opportunity/")) rest) in
    if truthy g then Some g else None
  else None.

Definition ID_RE_search (s : pystr) : option pystr :=
  first_match (ID_RE_match_at s) (seq 0 (S (length s))).

(** [_extract_id_from_href] *)
Definition _extract_id_from_href (href : option pystr) : option pystr :=
  if negb (truthy (or_empty href)) then None
  else ID_RE_search (or_empty href).

(** [f"{BASE_URL}{href}" if href and href.startswith("/") else href] *)
Definition resolve_url (href : option pystr) : option pystr :=
  match href with
  | Some h =>
      if truthy h && startswith h (lit "/") then Some (BASE_URL ++ h)
      else href
  | None => href
  end.

(** The loop over [OPP_TYPE_CLASSES.items()] with its [break]. *)
Fixpoint classify (table : list (pystr * pystr)) (link_class : pystr)
    (opp_type : pystr) : pystr :=
  match table with
  | [] => opp_type
  | (cls, type_name) :: table' =>
      if contains cls link_class then type_name
      else classify table' link_class opp_type
  end.

Section Extractor.
Context `{CharTables}.

(** [(await el.inner_text()).strip() if await el.count() > 0 else None] *)
Definition optional_text (count : result nat) (inner_text : result pystr)
  : result (option pystr) :=
  let* n := count in
  if 0 <? n then let* t := inner_text in Ok (Some (strip t))
  else Ok None.

(** The fallback of [_extract_row] for the date. *)
Definition ongoing_fallback (date_str : option pystr)
    (time_cell_text : result pystr) : result (option pystr) :=
  if negb (truthy (or_empty date_str)) then
    let* raw := time_cell_text in
    let raw_time := strip raw in
    if contains (lit "ongoing") (lower raw_time) then Ok (Some (lit "Ongoing"))
    else Ok date_str
  else Ok date_str.

(** [_extract_row]; [now] is [datetime.now().isoformat()] at the time the
    record is built. *)
Definition _extract_row (now : pystr) (row : row_dom) : result Opportunity :=
  let* title := opp_link_inner_text row in
  let* href := opp_link_href row in
  let opp_url := resolve_url href in
  let opp_id := _extract_id_from_href href in
  let* class_attr := opp_link_class row in
  let link_class := or_empty class_attr in
  let opp_type := classify OPP_TYPE_CLASSES link_class (lit "Volunteer Opportunity") in
  let* organization := org_link_inner_text row in
  let* org_href := org_link_href row in
  let org_url := resolve_url org_href in
  let* where_text := where_cell_inner_text row in
  let location := strip where_text in
  let* datetime_iso := time_cell_data_order row in
  let* date_str := optional_text (date_el_count row) (date_el_inner_text row) in
  let* time_str := optional_text (time_el_count row) (time_el_inner_text row) in
  let* duration := optional_text (dur_el_count row) (dur_el_inner_text row) in
  let* date_str := ongoing_fallback date_str (time_cell_inner_text row) in
  let* dist_text := dist_cell_inner_text row in
  let distance := strip dist_text in
  Ok {| title := strip title;
        organization := strip organization;
        location := location;
        date := date_str;
        time := time_str;
        duration := duration;
        datetime_iso := datetime_iso;
        distance := Some distance;
        opportunity_type := opp_type;
        opportunity_url := opp_url;
        opportunity_id := opp_id;
        organization_url := org_url;
        scraped_at := now |}.

End Extractor.

(** ** The incremental loader ([_load_all_results])

    The page is a state [P] the loader cannot inspect; each operation on it
    answers and moves it to a next state, so that the answers can depend on
    everything done before.  The loader keeps the trace of the operations
    it performed. *)

Inductive action :=
| RowCount
| LoadMoreCount
| IsVisible
| ScrollIntoView
| Click
| WaitForRows (count_before : nat)
| Sleep.

Global Instance action_eq_dec : EqDecision action.
Proof. solve_decision. Defined.

(** The operations of Playwright the loader calls; each of them can raise. *)
Record page_ops {P : Type} := {
  result_row_count : P → result nat * P;
  load_more_count : P → result nat * P;
  load_more_is_visible : P → result bool * P;
  load_more_scroll : P → result unit * P;
  load_more_click : P → result unit * P;
  wait_for_more_rows : nat → P → result unit * P;
}.
Arguments page_ops P : clear implicits.

(** How the loop of [_load_all_results] ended. *)
Inductive loop_exit :=
| NoLoadMoreButton       (* "No more 'Load more' button. All results loaded." *)
| NoNewRows (click_num : nat)  (* "No new rows after click #%d." *)
| RangeExhausted.        (* the [for] loop ran to its end *)

Section Loader.
Context {P : Type} (ops : page_ops P).

(** A computation on the page: a result, the next page state and the
    operations performed. *)
Definition page_m (A : Type) : Type := P * list action → result A * (P * list action).

Definition pret {A} (a : A) : page_m A := λ st, (Ok a, st).

Definition pbind {A B} (m : page_m A) (f : A → page_m B) : page_m B :=
  λ st,
    match m st with
    | (Ok a, st') => f a st'
    | (Raise e, st') => (Raise e, st')
    end.

(** An operation on the page: its exception, if any, is the computation's. *)
Definition perform {A} (a : action) (op : P → result A * P) : page_m A :=
  λ st, let '(x, p) := op st.1 in (x, (p, st.2 ++ [a])).

(** [try: await m / except Exception: ...]: whether [m] returned. *)
Definition returns {A} (m : page_m A) : page_m bool :=
  λ st,
    match m st with
    | (Ok _, st') => (Ok true, st')
    | (Raise _, st') => (Ok false, st')
    end.

Notation "'let+' x ':=' m 'in' k" := (pbind m (fun x => k))
  (at level 10, x name, m at level 200, k at level 200).

Definition sleep : page_m unit := λ st, (Ok tt, (st.1, st.2 ++ [Sleep])).

(** The [for click_num in range(click_num, click_num + n)] loop. *)
Fixpoint load_loop (n : nat) (click_num : nat) : page_m loop_exit :=
  match n with
  | 0 => pret RangeExhausted
  | S n' =>
      let+ count_before := perform RowCount (result_row_count ops) in
      let+ c := perform LoadMoreCount (load_more_count ops) in
      if c =? 0 then pret NoLoadMoreButton else
      let+ visible := perform IsVisible (load_more_is_visible ops) in
      if negb visible then pret NoLoadMoreButton else
      let+ _ := perform ScrollIntoView (load_more_scroll ops) in
      let+ _ := perform Click (load_more_click ops) in
      let+ grew := returns (perform (WaitForRows count_before)
                              (wait_for_more_rows ops count_before)) in
      if negb grew then pret (NoNewRows click_num) else
      let+ _ := sleep in
      load_loop n' (S click_num)
  end.

(** [_load_all_results]: the loop over [range(1, MAX_LOAD_MORE_CLICKS + 1)]
    and the final count, which is logged. *)
Definition _load_all_results : page_m (loop_exit * nat) :=
  let+ e := load_loop MAX_LOAD_MORE_CLICKS 1 in
  let+ final_count := perform RowCount (result_row_count ops) in
  pret (e, final_count).

(** The number of clicks a computation performed. *)
Definition clicks (trace : list action) : nat := count_occ action_eq_dec trace Click.

End Loader.

(** ** Vocabulary of the specification *)

Section SpecText.
Context `{CharTables}.

(** A standalone 5-digit run at position [i]: five digits, with no word
    character directly before or after them. *)
Definition non_word_at (s : pystr) (j : nat) : Prop :=
  ∀ c, s !! j = Some c → is_word c = false.

Definition standalone_run (s : pystr) (i : nat) : Prop :=
  (∀ k, k < 5 → ∃ c, s !! (i + k) = Some c ∧ is_digit c = true) ∧
  (∀ j, S j = i → non_word_at s j) ∧
  non_word_at s (i + 5).

(** [z] is the first standalone 5-digit run of [s]. *)
Definition first_standalone_run (s : pystr) (z : pystr) : Prop :=
  ∃ i, standalone_run s i ∧ z = take 5 (drop i s) ∧
       ∀ j, j < i → ¬ standalone_run s j.

(** The text [group_by_zip] searches for a row. *)
Definition row_location (r : row) : pystr :=
  or_empty (dict_get r (lit "location") (Some [])).

Definition zip_of (r : row) : option pystr :=
  extract_zipcode (dict_get r (lit "location") (Some [])).

(** All rows of the buckets, bucket after bucket. *)
Definition bucket_rows (by_zip : gmap pystr (list row)) : list row :=
  concat (snd <$> map_to_list by_zip).

End SpecText.

Section SpecMatcher.
Context `{CharTables} {G : Type}.

(** A boundary feature with the two members of a GeoJSON feature. *)
Definition well_formed (feat : feature G) : Prop :=
  ∃ p g, f_properties feat = PropsDict p ∧ f_geometry feat = Some g.

(** A record with the two fields every summary reads by subscript. *)
Definition has_display_fields (o : row) : Prop :=
  is_Some (o !! lit "title") ∧ is_Some (o !! lit "organization").

(** The zip value of a boundary feature under the detected key. *)
Definition resolved_zip (zip_key : pystr) (feat : feature G) : pystr :=
  match f_properties feat with
  | PropsDict p => py_str (props_get p zip_key (JStr []))
  | _ => []
  end.

Definition matches (by_zip : gmap pystr (list row)) (zip_key : pystr)
    (feat : feature G) : Prop :=
  is_Some (by_zip !! resolved_zip zip_key feat).

Global Instance matches_dec by_zip zip_key feat :
  Decision (matches by_zip zip_key feat).
Proof. unfold matches. apply _. Defined.

(** [s] is the display summary of the record [o]. *)
Definition summarizes (o : row) (s : summary) : Prop :=
  o !! lit "title" = Some (s_title s) ∧
  o !! lit "organization" = Some (s_organization s) ∧
  s_date s = dict_get o (lit "date") (Some []) ∧
  s_time s = dict_get o (lit "time") (Some []) ∧
  s_type s = dict_get o (lit "opportunity_type") (Some []) ∧
  s_url s = dict_get o (lit "opportunity_url") (Some []).

(** [jf] is the joined feature of the boundary feature [feat]. *)
Definition joins (by_zip : gmap pystr (list row)) (zip_key : pystr)
    (feat : feature G) (jf : joined_feature G) : Prop :=
  f_geometry feat = Some (j_geometry jf) ∧
  j_zipcode jf = resolved_zip zip_key feat ∧
  ∃ opps, by_zip !! j_zipcode jf = Some opps ∧
          j_count jf = length opps ∧
          Forall2 summarizes opps (j_opportunities jf).

(** The key the detection loop ends with is usable. *)
Definition detected (boundaries : list (feature G)) (zip_key : pystr) : Prop :=
  detect_zip_key (take 5 boundaries) None = Ok (Some zip_key) ∧
  truthy zip_key = true.

(** [w] is the warning for the set [unmatched] of zip codes: none when
    the set is empty; else its size, and its ten smallest members in
    ascending order (all of them when they are fewer). *)
Definition reports (unmatched : gset pystr) (w : option (nat * list pystr)) : Prop :=
  match w with
  | None => unmatched = ∅
  | Some (n, shown) =>
      n = size unmatched ∧ 0 < n ∧
      length shown = n `min` 10 ∧
      StronglySorted str_le shown ∧ NoDup shown ∧
      (∀ z, z ∈ shown → z ∈ unmatched) ∧
      (∀ z z', z ∈ shown → z' ∈ unmatched → z' ∉ shown → str_le z z')
  end.

End SpecMatcher.

Section SpecExtractor.
Context `{CharTables}.

(** A text with a character that is not white space. *)
Definition has_visible_text (s : pystr) : Prop :=
  Exists (λ c, is_space c = false) s.

(** Every read of [_extract_row] other than those of the date sub-element
    and of the raw text of the time cell answers. *)
Definition other_reads_succeed (row : row_dom) : Prop :=
  is_Ok (opp_link_inner_text row) ∧ is_Ok (opp_link_href row) ∧
  is_Ok (opp_link_class row) ∧ is_Ok (org_link_inner_text row) ∧
  is_Ok (org_link_href row) ∧ is_Ok (where_cell_inner_text row) ∧
  is_Ok (time_cell_data_order row) ∧
  is_Ok (optional_text (time_el_count row) (time_el_inner_text row)) ∧
  is_Ok (optional_text (dur_el_count row) (dur_el_inner_text row)) ∧
  is_Ok (dist_cell_inner_text row).

(** The date of a row without date sub-element, from the raw text of its
    time cell. *)
Definition ongoing_or_none (raw : pystr) : option pystr :=
  if contains (lit "ongoing") (lower (strip raw)) then Some (lit "Ongoing")
  else None.

End SpecExtractor.

(** [needle] occurs in [hay] up to the case of ASCII letters. *)
Definition occurs_ignoring_case (needle hay : pystr) : Prop :=
  ∃ i, ascii_tolower <$> take (length needle) (drop i hay) = needle.

(** An absolute URL starts with a scheme (RFC 3986): a letter, then
    letters, digits, [+], [-] or [.], then a colon. *)
Definition scheme_char (c : N) : bool :=
  ascii_alnum c || (c =? 43)%N || (c =? 45)%N || (c =? 46)%N.

Fixpoint scheme_rest (s : pystr) : bool :=
  match s with
  | [] => false
  | c :: s' => if (c =? 58)%N then true else scheme_char c && scheme_rest s'
  end.

Definition is_absolute_url (s : pystr) : bool :=
  match s with
  | [] => false
  | c :: s' => (ascii_upper c || ascii_lower c) && scheme_rest s'
  end.

Section SpecLoader.
Context {P : Type} (ops : page_ops P).

(** The counts and the operations on the control answer; the wait for
    more rows may fail. *)
Definition page_answers : Prop :=
  (∀ p, is_Ok (result_row_count ops p).1) ∧
  (∀ p, is_Ok (load_more_count ops p).1) ∧
  (∀ p, is_Ok (load_more_is_visible ops p).1) ∧
  (∀ p, is_Ok (load_more_scroll ops p).1) ∧
  (∀ p, is_Ok (load_more_click ops p).1).

End SpecLoader.

(** ** Test data

    The scenarios of the specification, on ASCII text; a geometry is
    represented by a number. *)

Module Scenario.

Definition record (title organization location : string) : row :=
  <[lit "title" := Some (lit title)]>
    (<[lit "organization" := Some (lit organization)]>
       {[ lit "location" := Some (lit location) ]}).

Definition rec1 : row := record "Food bank" "LA Works" "Los Angeles, CA 90001".
Definition rec2 : row := record "Tutoring" "Library" "12 Oak Ave, CA 90001".

Definition boundary (key zip : string) (geometry : nat) : feature nat :=
  {| f_properties := PropsDict [(lit "name", JStr (lit "area")); (lit key, JStr (lit zip))];
     f_geometry := Some geometry |}.

(** Boundary features for 90001 and 90002, aggregation {90001: [rec1, rec2]}. *)
Definition boundaries : list (feature nat) :=
  [boundary "zip" "90001" 1; boundary "zip" "90002" 2].

Definition by_zip : gmap pystr (list row) := {[ lit "90001" := [rec1; rec2] ]}.

(** The end-to-end scenario: boundaries for 90001 and 90065, one record in
    90065 and one remote record. *)
Definition rows_e2e : list row :=
  [record "Park cleanup" "Parks" "123 Main St, Los Angeles, CA 90065";
   record "Phone bank" "Voices" "Remote"].

Definition boundaries_e2e : list (feature nat) :=
  [boundary "zip" "90001" 1; boundary "zip" "90065" 2].

(** Two boundary features with the zip value 90001. *)
Definition overlapping : list (feature nat) :=
  [boundary "zip" "90001" 1; boundary "zip" "90001" 3].

(** A boundary feature whose zip-bearing key is the empty string. *)
Definition unnamed_key : list (feature nat) :=
  [{| f_properties := PropsDict [([], JStr (lit "90001"))];
      f_geometry := Some 1 |}].

(** A result row: the texts of its two anchors, the href of the first and
    the raw text of its time cell, which has no sub-elements. *)
Definition listing (title_text org_text href raw_time : string) : row_dom :=
  {| opp_link_inner_text := Ok (lit title_text);
     opp_link_href := Ok (Some (lit href));
     opp_link_class := Ok (Some (lit "opp-link green-key"));
     org_link_inner_text := Ok (lit org_text);
     org_link_href := Ok (Some (lit "/organization/001"));
     where_cell_inner_text := Ok (lit " Los Angeles, CA 90065 ");
     time_cell_data_order := Ok None;
     date_el_count := Ok 0;
     date_el_inner_text := Raise (PlaywrightError (lit "Timeout"));
     time_el_count := Ok 0;
     time_el_inner_text := Raise (PlaywrightError (lit "Timeout"));
     dur_el_count := Ok 0;
     dur_el_inner_text := Raise (PlaywrightError (lit "Timeout"));
     time_cell_inner_text := Ok (lit raw_time);
     dist_cell_inner_text := Ok (lit "2.4 mi") |}.

Definition now : pystr := lit "2025-01-01T00:00:00".

(** Three pages, the state being the number of rows: one whose control
    always answers with more rows, one whose rows never grow, and one
    without control. *)
Definition endless : page_ops nat :=
  {| result_row_count := λ p, (Ok p, p);
     load_more_count := λ p, (Ok 1, p);
     load_more_is_visible := λ p, (Ok true, p);
     load_more_scroll := λ p, (Ok tt, p);
     load_more_click := λ p, (Ok tt, p + 10);
     wait_for_more_rows := λ _ p, (Ok tt, p) |}.

Definition stalled : page_ops nat :=
  {| result_row_count := λ p, (Ok p, p);
     load_more_count := λ p, (Ok 1, p);
     load_more_is_visible := λ p, (Ok true, p);
     load_more_scroll := λ p, (Ok tt, p);
     load_more_click := λ p, (Ok tt, p);
     wait_for_more_rows := λ _ p, (Raise (PlaywrightError (lit "Timeout")), p) |}.

Definition finished : page_ops nat :=
  {| result_row_count := λ p, (Ok p, p);
     load_more_count := λ p, (Ok 0, p);
     load_more_is_visible := λ p, (Ok false, p);
     load_more_scroll := λ p, (Ok tt, p);
     load_more_click := λ p, (Ok tt, p);
     wait_for_more_rows := λ _ p, (Ok tt, p) |}.

Definition hidden : page_ops nat :=
  {| result_row_count := λ p, (Ok p, p);
     load_more_count := λ p, (Ok 1, p);
     load_more_is_visible := λ p, (Ok false, p);
     load_more_scroll := λ p, (Ok tt, p);
     load_more_click := λ p, (Ok tt, p);
     wait_for_more_rows := λ _ p, (Ok tt, p) |}.

(** A page that is closed after [p] clicks: from then on every operation
    raises. *)
Definition closing : page_ops nat :=
  let closed := PlaywrightError (lit "Target closed") in
  {| result_row_count := λ p, (if p is 0 then Raise closed else Ok 30, p);
     load_more_count := λ p, (if p is 0 then Raise closed else Ok 1, p);
     load_more_is_visible := λ p, (if p is 0 then Raise closed else Ok true, p);
     load_more_scroll := λ p, (if p is 0 then Raise closed else Ok tt, p);
     load_more_click := λ p, (if p is 0 then Raise closed else Ok tt, pred p);
     wait_for_more_rows := λ _ p, (if p is 0 then Raise closed else Ok tt, p) |}.

(** An aggregation with a bucket for 90001 and twelve buckets for zip
    codes without boundary. *)
Definition scattered : gmap pystr (list row) :=
  list_to_map
    ((λ z, (lit z, [rec1])) <$>
     ["90112"; "90103"; "90001"; "90111"; "90102"; "90110"; "90101"; "90109";
      "90104"; "90108"; "90105"; "90107"; "90106"]).

End Scenario.

(** ** The result harvester ([_extract_all_rows])

    [rows] holds, for each row index below [rows.count()], what the browser
    answers to the reads on [rows.nth(i)]; [clock i] is the time at which
    the record of row [i] is built.  An [Opportunity] is always true, so
    the test [if opp] is no filter.  The function is embedded with its
    warnings: the indices of the rows it skipped and their exceptions. *)

Section Harvester.
Context `{CharTables}.

Definition extract_step (clock : nat → pystr)
    (acc : list Opportunity * list (nat * exn)) (ir : nat * row_dom)
  : list Opportunity * list (nat * exn) :=
  match _extract_row (clock ir.1) ir.2 with
  | Ok opp => (acc.1 ++ [opp], acc.2)
  | Raise e => (acc.1, acc.2 ++ [(ir.1, e)])
  end.

Definition _extract_all_rows (clock : nat → pystr) (rows : list row_dom)
  : list Opportunity * list (nat * exn) :=
  foldl (extract_step clock) ([], []) (zip (seq 0 (length rows)) rows).

End Harvester.

(** ** The statistics of [run] ([main.py])

    [types[opp.opportunity_type] = types.get(opp.opportunity_type, 0) + 1]
    over the opportunities, and the size of the set of organizations. *)

Definition count_type (types : gmap pystr nat) (opp : Opportunity) : gmap pystr nat :=
  <[opportunity_type opp := default 0 (types !! opportunity_type opp) + 1]> types.

Definition count_types (opportunities : list Opportunity) : gmap pystr nat :=
  foldl count_type ∅ opportunities.

Definition unique_organizations (opportunities : list Opportunity) : nat :=
  size (list_to_set (organization <$> opportunities) : gset pystr).

(** ** The life cycle of the scraper ([start], [stop]) and [run]

    The calls on the browser library, on [scrape_search_results] and on
    [save_results] are answered by the outside: each returns or raises.
    [KeyboardInterrupt] is told apart because [run] catches it alone. *)

Inductive raised :=
| KeyboardInterrupt
| Failure (e : exn).

Inductive outcome (A : Type) :=
| Returns (a : A)
| Raises (r : raised).
Arguments Returns {A} a.
Arguments Raises {A} r.

Inductive call :=
| PlaywrightStart
| Launch
| NewContext
| NewPage
| ScrapeSearchResults
| SaveResults (records : nat)
| BrowserClose
| PlaywrightStop.

Global Instance call_eq_dec : EqDecision call.
Proof. solve_decision. Defined.

Record outside := {
  playwright_start : outcome unit;
  chromium_launch : outcome unit;
  new_context : outcome unit;
  new_page : outcome unit;
  scrape_search_results : outcome (list Opportunity);
  save_results : list Opportunity → outcome unit;
  browser_close : outcome unit;
  playwright_stop : outcome unit;
}.

(** The attributes of [VolunteerScraper] that [stop] tests. *)
Record scraper := {
  _playwright : bool;
  _browser : bool;
}.

(** [VolunteerScraper.__init__] *)
Definition new_scraper : scraper := {| _playwright := false; _browser := false |}.

(** [start]: the calls made, the scraper afterwards, and the outcome. *)
Definition start (w : outside) (self : scraper) : list call * scraper * outcome unit :=
  match playwright_start w with
  | Raises r => ([PlaywrightStart], self, Raises r)
  | Returns _ =>
      let self := {| _playwright := true; _browser := _browser self |} in
      match chromium_launch w with
      | Raises r => ([PlaywrightStart; Launch], self, Raises r)
      | Returns _ =>
          let self := {| _playwright := _playwright self; _browser := true |} in
          match new_context w with
          | Raises r => ([PlaywrightStart; Launch; NewContext], self, Raises r)
          | Returns _ =>
              match new_page w with
              | Raises r =>
                  ([PlaywrightStart; Launch; NewContext; NewPage], self, Raises r)
              | Returns _ =>
                  ([PlaywrightStart; Launch; NewContext; NewPage], self, Returns tt)
              end
          end
      end
  end.

(** [stop] *)
Definition stop (w : outside) (self : scraper) : list call * outcome unit :=
  let '(calls, closed) :=
    if _browser self then ([BrowserClose], browser_close w) else ([], Returns tt) in
  match closed with
  | Raises r => (calls, Raises r)
  | Returns _ =>
      if _playwright self then (calls ++ [PlaywrightStop], playwright_stop w)
      else (calls, Returns tt)
  end.

(** The [try] block of [run]. *)
Definition run_body (w : outside) : list call * scraper * outcome unit :=
  let '(calls, self, started) := start w new_scraper in
  match started with
  | Raises r => (calls, self, Raises r)
  | Returns _ =>
      match scrape_search_results w with
      | Raises r => (calls ++ [ScrapeSearchResults], self, Raises r)
      | Returns opportunities =>
          match opportunities with
          | [] => (calls ++ [ScrapeSearchResults], self, Returns tt)
          | _ :: _ =>
              (calls ++ [ScrapeSearchResults; SaveResults (length opportunities)],
               self, save_results w opportunities)
          end
      end
  end.

(** [run]: the body, [except KeyboardInterrupt], [finally: stop()]. *)
Definition run (w : outside) : list call * outcome unit :=
  let '(calls, self, done) := run_body w in
  let handled :=
    match done with
    | Raises KeyboardInterrupt => Returns tt
    | _ => done
    end in
  let '(cleanup, stopped) := stop w self in
  (calls ++ cleanup,
   match stopped with
   | Raises r => Raises r
   | Returns _ => handled
   end).

(** ** [download_boundaries]

    The cache file is absent or has a text; a request to [BOUNDARIES_URL]
    is answered with a text or fails; [json.loads], [json.dump] and the
    count of features that is printed,
    [len(data.get('features', []))], are those of the interpreter ([J] is
    its type of parsed JSON).

    The cache is written by [os.makedirs], [open(..., "w")] and
    [json.dump(data, f)], in this order: when the directory cannot be made
    or the file cannot be opened there is no file; once the file is open
    it exists, and a dump that fails leaves in it what was written until
    then, a prefix of the text. *)

Inductive io_error :=
| URLError
| JSONDecodeError
| OSError
| NotADict.

Inductive fetched (A : Type) :=
| Got (a : A)
| Failed (e : io_error).
Arguments Got {A} a.
Arguments Failed {A} e.

Record files := {
  cache_file : option pystr;
  requests : nat;
}.

(** How writing the cache goes. *)
Inductive write_outcome :=
| CannotOpen                    (* [os.makedirs] or [open] raises *)
| Interrupted (written : nat)   (* [json.dump] raises after [written] code points *)
| Written.                      (* the [with] block is left normally *)

Section Download.
Context {J : Type}.
Context (loads : pystr → fetched J) (dumps : J → pystr)
        (features_len : J → fetched nat).

Definition download_boundaries (response : fetched pystr) (write : write_outcome)
    (w : files) : files * fetched J :=
  match cache_file w with
  | Some text => (w, loads text)
  | None =>
      let w := {| cache_file := cache_file w; requests := S (requests w) |} in
      match response with
      | Failed e => (w, Failed e)
      | Got body =>
          match loads body with
          | Failed e => (w, Failed e)
          | Got data =>
              match write with
              | CannotOpen => (w, Failed OSError)
              | Interrupted written =>
                  ({| cache_file := Some (take written (dumps data));
                      requests := requests w |},
                   Failed OSError)
              | Written =>
                  let w := {| cache_file := Some (dumps data); requests := requests w |} in
                  match features_len data with
                  | Failed e => (w, Failed e)
                  | Got _ => (w, Got data)
                  end
              end
          end
      end
  end.

End Download.

(** ** Vocabulary for the further properties *)

Section SpecHarvester.
Context `{CharTables}.

(** The record of a row of [_extract_all_rows], and its warning. *)
Definition extracted (clock : nat → pystr) (ir : nat * row_dom) : option Opportunity :=
  match _extract_row (clock ir.1) ir.2 with
  | Ok opp => Some opp
  | Raise _ => None
  end.

Definition skipped (clock : nat → pystr) (ir : nat * row_dom) : option (nat * exn) :=
  match _extract_row (clock ir.1) ir.2 with
  | Ok _ => None
  | Raise e => Some (ir.1, e)
  end.

End SpecHarvester.

(** The total [main] of [visualize.py] prints:
    [sum(len(v) for v in by_zip.values()) + len(virtual)]. *)
Definition total_opportunities (by_zip : gmap pystr (list row)) (virtual : list row) : nat :=
  py_sum (length <$> (snd <$> map_to_list by_zip)) + length virtual.

(** The records of the buckets whose zip code is not in [zips]. *)
Definition records_outside (zips : list pystr) (by_zip : gmap pystr (list row)) : list row :=
  bucket_rows (filter (λ kv, kv.1 ∉ zips) by_zip).

(** Group 1 of [ID_RE] starts at [i + 13] in [s]. *)
Definition id_at (s : pystr) (i : nat) (id : pystr) : Prop :=
  take (length (lit "/opportunity/")) (drop i s) = lit "/opportunity/" ∧
  id ≠ [] ∧ Forall (λ c, ascii_alnum c = true) id ∧
  ∃ rest, drop (i + length (lit "/opportunity/")) s = id ++ rest ∧
          match rest with
          | [] => True
          | c :: _ => ascii_alnum c = false
          end.

(** [v] is the display entry of the virtual record [o]. *)
Definition projects (o : row) (v : virtual_summary) : Prop :=
  o !! lit "title" = Some (v_title v) ∧
  o !! lit "organization" = Some (v_organization v) ∧
  v_date v = dict_get o (lit "date") (Some []) ∧
  v_type v = dict_get o (lit "opportunity_type") (Some []) ∧
  v_url v = dict_get o (lit "opportunity_url") (Some []).

(** A call that returned. *)
Definition returned {A} (o : outcome A) : Prop := ∃ a, o = Returns a.

(** The calls of a trace that [stop] makes. *)
Definition is_cleanup (c : call) : bool :=
  match c with
  | BrowserClose | PlaywrightStop => true
  | _ => false
  end.

Section SpecJoin.
Context `{CharTables} {G : Type}.

(** A boundary feature the join loop gets through: its [properties] are an
    object and, if its zip value is a key of the aggregation, it has a
    [geometry] and the records of the bucket have the display fields. *)
Definition joinable (by_zip : gmap pystr (list row)) (zip_key : pystr)
    (feat : feature G) : Prop :=
  (∃ p, f_properties feat = PropsDict p) ∧
  ∀ opps, by_zip !! resolved_zip zip_key feat = Some opps →
          is_Some (f_geometry feat) ∧ Forall has_display_fields opps.

End SpecJoin.

(** ** Test data for the further properties *)

Module Cases.

(** A result row whose time cell has a date, a time and a duration. *)
Definition dated (date_text raw_time : string) : row_dom :=
  {| opp_link_inner_text := Ok (lit "Beach cleanup");
     opp_link_href := Ok (Some (lit "/opportunity/a0CQg00009Z8TdkMAF"));
     opp_link_class := Ok (Some (lit "yellow-key green-key"));
     org_link_inner_text := Ok (lit "Heal the Bay");
     org_link_href := Ok None;
     where_cell_inner_text := Ok (lit "Santa Monica, CA 90401");
     time_cell_data_order := Ok (Some (lit "2025-01-05T09:00:00"));
     date_el_count := Ok 1;
     date_el_inner_text := Ok (lit date_text);
     time_el_count := Ok 1;
     time_el_inner_text := Ok (lit " 9:00 AM ");
     dur_el_count := Ok 0;
     dur_el_inner_text := Raise (PlaywrightError (lit "Timeout"));
     time_cell_inner_text := Ok (lit raw_time);
     dist_cell_inner_text := Ok (lit "") |}.

(** Two joined features. *)
Definition geojson : list (joined_feature nat) :=
  [{| j_geometry := 1; j_zipcode := lit "90001"; j_count := 2; j_opportunities := [] |};
   {| j_geometry := 2; j_zipcode := lit "90065"; j_count := 5; j_opportunities := [] |}].

End Cases.

(** * Properties *)

(** ** The pattern [ZIP_RE] *)

Section TextFacts.
Context `{CharTables}.

Lemma first_match_seq {B} (f : nat → option B) a n y :
  first_match f (seq a n) = Some y ↔
  ∃ i, a ≤ i < a + n ∧ f i = Some y ∧ ∀ j, a ≤ j < i → f j = None.
Proof.
  revert a. induction n as [|n IH]; intros a; simpl.
  - split; [done | intros (i & ? & _); lia].
  - destruct (f a) as [y'|] eqn:Ha.
    + split.
      * intros [= ->]. exists a. split; [lia|]. split; [done|]. intros; lia.
      * intros (i & Hi & Hfi & Hlt).
        destruct (decide (i = a)) as [->|Hne]; [congruence|].
        rewrite Hlt in Ha; [done | lia].
    + rewrite IH. split.
      * intros (i & Hi & Hfi & Hlt). exists i. split; [lia|]. split; [done|].
        intros j Hj. destruct (decide (j = a)) as [->|]; [done|].
        apply Hlt. lia.
      * intros (i & Hi & Hfi & Hlt).
        destruct (decide (i = a)) as [->|Hne]; [congruence|].
        exists i. split; [lia|]. split; [done|]. intros j Hj. apply Hlt. lia.
Qed.

Lemma first_match_seq_None {B} (f : nat → option B) a n :
  first_match f (seq a n) = None ↔ ∀ i, a ≤ i < a + n → f i = None.
Proof.
  revert a. induction n as [|n IH]; intros a; simpl.
  - split; [intros; lia | done].
  - destruct (f a) as [y'|] eqn:Ha.
    + split; [done|]. intros Hall. rewrite Hall in Ha; [done | lia].
    + rewrite IH. split.
      * intros Hall i Hi. destruct (decide (i = a)) as [->|]; [done|].
        apply Hall. lia.
      * intros Hall i Hi. apply Hall. lia.
Qed.

Lemma five_digits_at (s : pystr) i :
  length (take 5 (drop i s)) = 5 ∧ forallb is_digit (take 5 (drop i s)) = true ↔
  ∀ k, k < 5 → ∃ c, s !! (i + k) = Some c ∧ is_digit c = true.
Proof.
  split.
  - intros [Hlen Hdig] k Hk.
    destruct (take 5 (drop i s) !! k) as [c|] eqn:Hc.
    + exists c. split.
      * rewrite lookup_take_lt in Hc by done. by rewrite lookup_drop in Hc.
      * rewrite forallb_forall in Hdig. apply Hdig.
        apply list_elem_of_In. by eapply list_elem_of_lookup_2.
    + apply lookup_ge_None in Hc. lia.
  - intros Hk. split.
    + rewrite length_take, length_drop.
      destruct (Hk 4) as (c & Hc & _); [lia|].
      apply lookup_lt_Some in Hc. lia.
    + rewrite forallb_forall. intros c Hin.
      apply list_elem_of_In, list_elem_of_lookup in Hin as [k Hlk].
      assert (k < 5) as Hlt.
      { apply lookup_lt_Some in Hlk. rewrite length_take in Hlk. lia. }
      rewrite lookup_take_lt in Hlk by done. rewrite lookup_drop in Hlk.
      destruct (Hk k Hlt) as (c' & Hc' & Hd). congruence.
Qed.

Lemma word_before_false (s : pystr) i :
  word_before s i = false ↔ ∀ j, S j = i → non_word_at s j.
Proof.
  unfold word_before, non_word_at. destruct i as [|j].
  - split; [intros _ j ?; lia | done].
  - split.
    + intros Hw j' [= ->] c Hc. by rewrite Hc in Hw.
    + intros Hall. destruct (s !! j) as [c|] eqn:Hc; [|done].
      simpl. by apply (Hall j).
Qed.

Lemma word_here_false (s : pystr) i :
  word_here s i = false ↔ non_word_at s i.
Proof.
  unfold word_here, non_word_at. split.
  - intros Hw c Hc. by rewrite Hc in Hw.
  - intros Hall. destruct (s !! i) as [c|] eqn:Hc; [|done]. simpl. by apply Hall.
Qed.

(** With digits being word characters, the pattern matches at [i] exactly
    on a standalone 5-digit run. *)
Lemma ZIP_RE_match_at_spec (s : pystr) i g :
  digits_are_word →
  ZIP_RE_match_at s i = Some g ↔ standalone_run s i ∧ g = take 5 (drop i s).
Proof.
  intros Hdw. unfold ZIP_RE_match_at, standalone_run, at_boundary.
  rewrite <- five_digits_at, <- word_before_false, <- word_here_false.
  assert (∀ k, k < 5 →
    length (take 5 (drop i s)) = 5 ∧ forallb is_digit (take 5 (drop i s)) = true →
    word_here s (i + k) = true) as Hword.
  { intros k Hk Hfive. apply five_digits_at with (k := k) in Hfive as (c & Hc & Hd); [|done].
    unfold word_here. rewrite Hc. simpl. by apply Hdw. }
  assert (length (take 5 (drop i s)) = 5 ∧ forallb is_digit (take 5 (drop i s)) = true →
    word_before s (i + 5) = true) as Hlast.
  { intros Hfive. specialize (Hword 4 ltac:(lia) Hfive).
    unfold word_before, word_here in *. by replace (i + 5) with (S (i + 4)) by lia. }
  split.
  - destruct (xorb (word_before s i) (word_here s i)) eqn:Hb1; [|done].
    case_bool_decide as Hlen; [|done].
    destruct (forallb is_digit (take 5 (drop i s))) eqn:Hdig; [|done].
    destruct (xorb (word_before s (i + 5)) (word_here s (i + 5))) eqn:Hb2; [|done].
    simpl. intros [= <-]. split; [|done].
    pose proof (Hword 0 ltac:(lia) (conj Hlen eq_refl)) as Hw0.
    rewrite Nat.add_0_r in Hw0. rewrite Hw0 in Hb1.
    rewrite (Hlast (conj Hlen eq_refl)) in Hb2.
    split; [done|]. split.
    + by destruct (word_before s i).
    + by destruct (word_here s (i + 5)).
  - intros [((Hlen & Hdig) & Hbefore & Hafter) ->].
    pose proof (Hword 0 ltac:(lia) (conj Hlen Hdig)) as Hw0.
    rewrite Nat.add_0_r in Hw0.
    rewrite Hw0, Hbefore, (Hlast (conj Hlen Hdig)), Hafter, Hdig.
    by rewrite bool_decide_eq_true_2.
Qed.

Lemma ZIP_RE_match_at_length (s : pystr) i g :
  ZIP_RE_match_at s i = Some g → length g = 5 ∧ i + 5 ≤ length s.
Proof.
  unfold ZIP_RE_match_at.
  destruct (at_boundary s i); [|done].
  case_bool_decide as Hlen; [|done]. simpl.
  destruct (forallb _ _); [|done]. destruct (at_boundary _ _); [|done].
  simpl. intros [= <-]. split; [done|].
  rewrite length_take, length_drop in Hlen. lia.
Qed.

Lemma extract_zipcode_search loc :
  extract_zipcode loc = ZIP_RE_search (or_empty loc).
Proof. unfold extract_zipcode. by destruct (ZIP_RE_search _). Qed.

Lemma extract_zipcode_length loc z :
  extract_zipcode loc = Some z → length z = 5.
Proof.
  rewrite extract_zipcode_search. unfold ZIP_RE_search.
  rewrite first_match_seq. intros (i & _ & Hm & _).
  by apply ZIP_RE_match_at_length in Hm as [? _].
Qed.

Lemma standalone_run_bound (s : pystr) i :
  standalone_run s i → i + 5 ≤ length s.
Proof.
  intros (Hd & _). destruct (Hd 4) as (c & Hc & _); [lia|].
  apply lookup_lt_Some in Hc. lia.
Qed.

Lemma extract_zipcode_Some loc z :
  digits_are_word →
  extract_zipcode loc = Some z ↔ first_standalone_run (or_empty loc) z.
Proof.
  intros Hdw. rewrite extract_zipcode_search. unfold ZIP_RE_search.
  rewrite first_match_seq. unfold first_standalone_run. split.
  - intros (i & Hi & Hm & Hlt). exists i.
    apply ZIP_RE_match_at_spec in Hm as [Hrun ->]; [|done].
    split; [done|]. split; [done|]. intros j Hj Hrun'.
    assert (ZIP_RE_match_at (or_empty loc) j = Some (take 5 (drop j (or_empty loc)))) as Hmj.
    { by apply ZIP_RE_match_at_spec. }
    rewrite Hlt in Hmj; [done | lia].
  - intros (i & Hrun & -> & Hlt). exists i.
    pose proof (standalone_run_bound _ _ Hrun). split; [lia|]. split.
    + by apply ZIP_RE_match_at_spec.
    + intros j Hj. destruct (ZIP_RE_match_at (or_empty loc) j) as [g|] eqn:Hm; [|done].
      apply ZIP_RE_match_at_spec in Hm as [Hrun' _]; [|done].
      exfalso. apply (Hlt j); [lia | done].
Qed.

Lemma extract_zipcode_None loc :
  digits_are_word →
  extract_zipcode loc = None ↔ ∀ i, ¬ standalone_run (or_empty loc) i.
Proof.
  intros Hdw. rewrite extract_zipcode_search. unfold ZIP_RE_search.
  rewrite first_match_seq_None. split.
  - intros Hall i Hrun. pose proof (standalone_run_bound _ _ Hrun).
    assert (ZIP_RE_match_at (or_empty loc) i = Some (take 5 (drop i (or_empty loc)))) as Hm.
    { by apply ZIP_RE_match_at_spec. }
    rewrite Hall in Hm; [done | lia].
  - intros Hno i _. destruct (ZIP_RE_match_at (or_empty loc) i) as [g|] eqn:Hm; [|done].
    apply ZIP_RE_match_at_spec in Hm as [Hrun _]; [|done]. by apply Hno in Hrun.
Qed.

End TextFacts.

(** ** The zip aggregator *)

Section Aggregator.
Context `{CharTables}.

Lemma group_step_zip acc r :
  group_step acc r =
  match zip_of r with
  | Some z => (setdefault_append acc.1 z r, acc.2)
  | None => (acc.1, acc.2 ++ [r])
  end.
Proof.
  unfold group_step, zip_of.
  destruct (extract_zipcode _) as [z|] eqn:Hz; [|done].
  apply extract_zipcode_length in Hz. by destruct z.
Qed.

Lemma group_by_zip_snoc rows r :
  group_by_zip (rows ++ [r]) = group_step (group_by_zip rows) r.
Proof. unfold group_by_zip. apply foldl_snoc. Qed.

(** The virtual list holds the rows without a zip code, in input order. *)
Lemma group_by_zip_virtual rows :
  (group_by_zip rows).2 = filter (λ r, zip_of r = None) rows.
Proof.
  induction rows as [|r rows IH] using rev_ind; [done|].
  rewrite group_by_zip_snoc, group_step_zip, filter_app, <- IH.
  destruct (zip_of r) as [z|] eqn:Hz; simpl.
  - rewrite filter_cons_False by (rewrite Hz; done). by rewrite filter_nil, app_nil_r.
  - rewrite filter_cons_True by done. by rewrite filter_nil.
Qed.

(** The bucket of [z] holds the rows whose zip code is [z], in input order,
    and exists only when there is such a row. *)
Lemma group_by_zip_bucket rows z :
  (group_by_zip rows).1 !! z =
  match filter (λ r, zip_of r = Some z) rows with
  | [] => None
  | b => Some b
  end.
Proof.
  induction rows as [|r rows IH] using rev_ind; [done|].
  rewrite group_by_zip_snoc, group_step_zip, filter_app.
  destruct (zip_of r) as [z'|] eqn:Hz; simpl.
  - unfold setdefault_append. destruct (decide (z' = z)) as [->|Hne].
    + rewrite lookup_insert_eq, IH.
      rewrite filter_cons_True by done. rewrite filter_nil.
      by destruct (filter _ rows).
    + rewrite lookup_insert_ne by done. rewrite IH.
      rewrite filter_cons_False by (rewrite Hz; congruence).
      by rewrite filter_nil, app_nil_r.
  - rewrite IH. rewrite filter_cons_False by (rewrite Hz; done).
    by rewrite filter_nil, app_nil_r.
Qed.

Lemma bucket_rows_setdefault_append (m : gmap pystr (list row)) z r :
  bucket_rows (setdefault_append m z r) ≡ₚ bucket_rows m ++ [r].
Proof.
  unfold bucket_rows, setdefault_append.
  destruct (m !! z) as [b|] eqn:Hz; simpl.
  - rewrite <- (insert_delete_eq m z (b ++ [r])).
    rewrite map_to_list_insert by apply lookup_delete_eq.
    rewrite <- (map_to_list_delete m z b Hz). simpl.
    rewrite <- !app_assoc. apply Permutation_app_head, Permutation_app_comm.
  - rewrite map_to_list_insert by done. simpl. apply Permutation_cons_append.
Qed.

(** Buckets and virtual list together are a rearrangement of the input. *)
Lemma group_by_zip_permutation rows :
  rows ≡ₚ bucket_rows (group_by_zip rows).1 ++ (group_by_zip rows).2.
Proof.
  induction rows as [|r rows IH] using rev_ind.
  - unfold group_by_zip, bucket_rows. simpl. by rewrite map_to_list_empty.
  - rewrite group_by_zip_snoc, group_step_zip.
    destruct (zip_of r) as [z|]; simpl.
    + rewrite bucket_rows_setdefault_append, IH at 1.
      rewrite <- !app_assoc. apply Permutation_app_head, Permutation_app_comm.
    + rewrite IH at 1. by rewrite app_assoc.
Qed.

End Aggregator.

Section AggregatorClaims.
Context `{CharTables}.

Lemma zip_of_row_location r z :
  digits_are_word →
  zip_of r = Some z ↔ first_standalone_run (row_location r) z.
Proof. intros Hdw. by apply extract_zipcode_Some. Qed.

Lemma zip_of_None_row_location r :
  digits_are_word →
  zip_of r = None ↔ ∀ i, ¬ standalone_run (row_location r) i.
Proof. intros Hdw. by apply extract_zipcode_None. Qed.

Lemma bucket_member rows z b r :
  (group_by_zip rows).1 !! z = Some b → r ∈ b → r ∈ rows ∧ zip_of r = Some z.
Proof.
  rewrite group_by_zip_bucket. intros Hb Hr.
  assert (b = filter (λ r, zip_of r = Some z) rows) as ->.
  { destruct (filter _ rows); [done | by injection Hb]. }
  apply list_elem_of_filter in Hr. tauto.
Qed.

(** C1: [group_by_zip] partitions its input. Buckets and virtual list
    together are a rearrangement of the input rows (each row placed once,
    none duplicated, none dropped); the bucket of [z] holds, in input
    order, exactly the rows whose location has [z] as its first standalone
    5-digit run, and exists only if there is such a row; the virtual list
    holds, in input order, exactly the rows whose location has no
    standalone 5-digit run. *)
Theorem group_by_zip_partition (rows : list row) :
  digits_are_word →
  rows ≡ₚ bucket_rows (group_by_zip rows).1 ++ (group_by_zip rows).2 ∧
  (∀ z, (group_by_zip rows).1 !! z =
        match filter (λ r, zip_of r = Some z) rows with
        | [] => None
        | b => Some b
        end) ∧
  (group_by_zip rows).2 = filter (λ r, zip_of r = None) rows ∧
  (∀ r z, zip_of r = Some z ↔ first_standalone_run (row_location r) z) ∧
  (∀ r, zip_of r = None ↔ ∀ i, ¬ standalone_run (row_location r) i).
Proof.
  intros Hdw. split; [apply group_by_zip_permutation|].
  split; [apply group_by_zip_bucket|].
  split; [apply group_by_zip_virtual|].
  split; [intros; by apply zip_of_row_location|].
  intros; by apply zip_of_None_row_location.
Qed.

(** C10: [extract_zipcode] answers on every input, with [None] on [None]
    and on every string without a standalone 5-digit run, and with five
    characters otherwise; [group_by_zip] puts every row whose location is
    missing, [None] or empty into the virtual list and into no bucket. *)
Theorem extract_zipcode_total :
  digits_are_word →
  extract_zipcode None = None ∧
  (∀ s, (∀ i, ¬ standalone_run s i) → extract_zipcode (Some s) = None) ∧
  (∀ loc, extract_zipcode loc = None ∨
          ∃ z, extract_zipcode loc = Some z ∧ length z = 5) ∧
  (∀ rows r,
     r ∈ rows →
     r !! lit "location" = None ∨ r !! lit "location" = Some None ∨
       r !! lit "location" = Some (Some []) →
     r ∈ (group_by_zip rows).2 ∧
     ∀ z b, (group_by_zip rows).1 !! z = Some b → r ∉ b).
Proof.
  intros Hdw. split; [done|]. split.
  { intros s Hno. apply extract_zipcode_None; [done|].
    intros i Hrun. apply (Hno i). by destruct s. }
  split.
  { intros loc. destruct (extract_zipcode loc) as [z|] eqn:Hz; [|by left].
    right. exists z. split; [done|]. by eapply extract_zipcode_length. }
  intros rows r Hr Hloc.
  assert (zip_of r = None) as Hz.
  { unfold zip_of, dict_get. by destruct Hloc as [-> | [-> | ->]]. }
  split.
  - rewrite group_by_zip_virtual. by apply list_elem_of_filter.
  - intros z b Hb Hin. apply (bucket_member _ _ _ _ Hb) in Hin as [_ Hin].
    congruence.
Qed.

End AggregatorClaims.

Lemma ascii_digits_are_word : @digits_are_word ascii_tables.
Proof.
  intros c Hc. simpl in *. unfold ascii_word, ascii_alnum. by rewrite Hc.
Qed.

Lemma group_by_zip_partition_witness :
  let rows : list row :=
    [ {[ lit "location" := Some (lit "123 Main St, Los Angeles, CA 90065") ]};
      {[ lit "location" := Some (lit "Remote") ]} ] in
  @digits_are_word ascii_tables ∧
  rows ≡ₚ bucket_rows (@group_by_zip ascii_tables rows).1
            ++ (@group_by_zip ascii_tables rows).2.
Proof.
  intros rows. split; [apply ascii_digits_are_word|].
  apply (@group_by_zip_partition ascii_tables rows ascii_digits_are_word).
Defined.

Lemma extract_zipcode_total_witness :
  @digits_are_word ascii_tables ∧ @extract_zipcode ascii_tables None = None.
Proof.
  split; [apply ascii_digits_are_word|].
  apply (@extract_zipcode_total ascii_tables ascii_digits_are_word).
Defined.

(** ** The boundary matcher *)

Section MatcherFacts.
Context `{CharTables} {G : Type}.
Implicit Types (by_zip : gmap pystr (list row)) (feat : feature G).

Lemma map_result_summarize (opps : list row) :
  Forall has_display_fields opps →
  ∃ ss, map_result summarize opps = Ok ss ∧ Forall2 summarizes opps ss.
Proof.
  induction 1 as [|o opps [[t Ht] [g Hg]] _ (ss & Hss & Hall)].
  - exists []. split; [done | constructor].
  - eexists (_ :: ss). simpl. unfold summarize at 1, subscript.
    rewrite Ht, Hg. simpl. rewrite Hss. simpl. split; [done|].
    constructor; [|done]. by repeat split.
Qed.

Lemma join_feature_match by_zip zip_key feat opps :
  well_formed feat →
  Forall has_display_fields opps →
  by_zip !! resolved_zip zip_key feat = Some opps →
  ∃ jf, join_feature by_zip zip_key feat = Ok (Some jf) ∧
        joins by_zip zip_key feat jf ∧
        j_zipcode jf = resolved_zip zip_key feat ∧ j_count jf = length opps.
Proof.
  intros (p & g & Hp & Hg) Hrows Hz.
  destruct (map_result_summarize opps Hrows) as (ss & Hss & Hall).
  unfold join_feature, properties_of, geometry_of, resolved_zip in *.
  rewrite Hp in *. simpl. rewrite Hz, Hg. simpl. rewrite Hss. simpl.
  eexists. split; [done|]. split; [|done].
  unfold joins, resolved_zip. rewrite Hp. simpl. split; [done|]. split; [done|].
  by exists opps.
Qed.

Lemma join_feature_no_match by_zip zip_key feat :
  well_formed feat →
  by_zip !! resolved_zip zip_key feat = None →
  join_feature by_zip zip_key feat = Ok None.
Proof.
  intros (p & g & Hp & Hg) Hz.
  unfold join_feature, properties_of, resolved_zip in *.
  rewrite Hp in *. simpl. by rewrite Hz.
Qed.

(** The join loop appends one joined feature for each matching boundary
    feature, in order, and records their zip codes. *)
Lemma join_loop_spec by_zip zip_key (feats : list (feature G)) acc :
  Forall well_formed feats →
  map_Forall (λ _ opps, Forall has_display_fields opps) by_zip →
  ∃ jfs matched,
    join_loop by_zip zip_key feats acc = Ok (acc.1 ++ jfs, matched) ∧
    Forall2 (joins by_zip zip_key) (filter (matches by_zip zip_key) feats) jfs ∧
    ∀ z, z ∈ matched ↔ z ∈ acc.2 ∨ z ∈ j_zipcode <$> jfs.
Proof.
  intros Hwf Hrows. revert acc.
  induction Hwf as [|feat feats Hfeat _ IH]; intros acc.
  - exists [], acc.2. simpl. rewrite app_nil_r. destruct acc.
    split; [done|]. split; [constructor|].
    intros z. rewrite elem_of_nil. tauto.
  - simpl. destruct (by_zip !! resolved_zip zip_key feat) as [opps|] eqn:Hz.
    + destruct (join_feature_match by_zip zip_key feat opps Hfeat)
        as (jf & Hjf & Hjoins & Hzc & _); [by eapply Hrows | done |].
      rewrite Hjf. simpl.
      destruct (IH (acc.1 ++ [jf], {[j_zipcode jf]} ∪ acc.2))
        as (jfs & matched & Hloop & Hall & Hmatched).
      exists (jf :: jfs), matched. rewrite Hloop. simpl.
      rewrite <- app_assoc. split; [done|]. split.
      * rewrite filter_cons_True by (unfold matches; by rewrite Hz).
        by constructor.
      * intros z. rewrite Hmatched. simpl.
        rewrite elem_of_union, elem_of_singleton, elem_of_cons. tauto.
    + rewrite (join_feature_no_match by_zip zip_key feat Hfeat Hz). simpl.
      destruct (IH acc) as (jfs & matched & Hloop & Hall & Hmatched).
      exists jfs, matched. split; [done|]. split; [|done].
      rewrite filter_cons_False; [done|]. unfold matches. rewrite Hz.
      by intros [? ?].
Qed.

(** The order on strings is total and transitive, and two strings each
    below the other are equal. *)
Lemma str_le_total : Total str_le.
Proof.
  intros a. induction a as [|x a IH]; intros [|y b]; unfold str_le; simpl; auto.
  destruct (N.ltb_spec x y), (N.ltb_spec y x); auto; try lia. apply IH.
Qed.

Lemma str_le_trans : Transitive str_le.
Proof.
  intros a. induction a as [|x a IH]; intros [|y b] [|z c];
    unfold str_le; simpl; try done.
  destruct (N.ltb_spec x y), (N.ltb_spec y x), (N.ltb_spec y z),
    (N.ltb_spec z y), (N.ltb_spec x z), (N.ltb_spec z x);
    try done; try lia. apply IH.
Qed.

Lemma str_le_antisym : AntiSymm (=) str_le.
Proof.
  intros a. induction a as [|x a IH]; intros [|y b]; unfold str_le; simpl; try done.
  destruct (N.ltb_spec x y), (N.ltb_spec y x); try done; try lia.
  intros Hab Hba. f_equal; [lia|]. by apply IH.
Qed.

(** [sorted] arranges its argument in ascending order. *)
Lemma py_sorted_spec (l : list pystr) :
  py_sorted l ≡ₚ l ∧ StronglySorted str_le (py_sorted l).
Proof.
  split; [apply merge_sort_Permutation|].
  apply (@StronglySorted_merge_sort _ str_le _ str_le_trans str_le_total).
Qed.

(** The two figures of the warning of [build_choropleth_geojson]. *)
Lemma warning_reports (unmatched : gset pystr) :
  reports unmatched
    (if decide (unmatched = ∅) then None
     else Some (size unmatched, take 10 (py_sorted (elements unmatched)))).
Proof.
  destruct (decide _) as [|Hne]; [done|]. simpl.
  destruct (py_sorted_spec (elements unmatched)) as [Hperm Hsorted].
  set (l := py_sorted (elements unmatched)) in *.
  assert (NoDup l) as Hnodup by (rewrite Hperm; apply NoDup_elements).
  assert (length l = size unmatched) as Hlen by (by rewrite Hperm).
  assert (∀ z, z ∈ l ↔ z ∈ unmatched) as Hmem.
  { intros z. by rewrite Hperm, elem_of_elements. }
  rewrite <- (take_drop 10 l) in Hsorted, Hnodup, Hmem.
  split; [done|]. split.
  { apply Nat.neq_0_lt_0, size_non_empty_iff. by intros ?%leibniz_equiv. }
  split; [rewrite length_take; lia|].
  split; [by eapply StronglySorted_app_1_l|].
  split; [by apply NoDup_app in Hnodup as [? _]|].
  split.
  - intros z Hz. apply Hmem, elem_of_app. by left.
  - intros z z' Hz Hz' Hnot. apply Hmem, elem_of_app in Hz' as [?|Hz']; [done|].
    by eapply StronglySorted_app_1_elem_of.
Qed.

(** What [build_choropleth_geojson] returns once a key is detected. *)
Lemma build_choropleth_geojson_spec by_zip (boundaries : list (feature G)) zip_key :
  detected boundaries zip_key →
  Forall well_formed boundaries →
  map_Forall (λ _ opps, Forall has_display_fields opps) by_zip →
  ∃ out,
    build_choropleth_geojson by_zip boundaries = Ok out ∧
    Forall2 (joins by_zip zip_key)
      (filter (matches by_zip zip_key) boundaries) (features out) ∧
    ∃ unmatched,
      (∀ z, z ∈ unmatched ↔ z ∈ dom by_zip ∧ z ∉ j_zipcode <$> features out) ∧
      reports unmatched (warning out).
Proof.
  intros [Hdet Htruthy] Hwf Hrows.
  destruct (join_loop_spec by_zip zip_key boundaries ([], ∅) Hwf Hrows)
    as (jfs & matched & Hloop & Hall & Hmatched).
  destruct zip_key as [|c key]; [done|].
  unfold build_choropleth_geojson. rewrite Hdet. simpl. rewrite Hloop. simpl.
  eexists. split; [done|]. simpl. split; [done|].
  exists (dom by_zip ∖ matched). split; [|apply warning_reports].
  intros z. pose proof (Hmatched z) as Hm. cbn [fst snd] in Hm.
  rewrite elem_of_empty in Hm. rewrite elem_of_difference, Hm. tauto.
Qed.

End MatcherFacts.

(** ** The feature collection builder *)

Lemma foldl_add_sum_list (xs : list nat) a :
  foldl Nat.add a xs = a + sum_list xs.
Proof.
  revert a. induction xs as [|x xs IH]; intros a; simpl; [lia|].
  rewrite IH. lia.
Qed.

Lemma py_sum_sum_list (xs : list nat) : py_sum xs = sum_list xs.
Proof. unfold py_sum. by rewrite foldl_add_sum_list. Qed.

Lemma generate_html_Ok {G} (geojson : list (joined_feature G)) virtual_opps html :
  generate_html geojson virtual_opps = Ok html →
  geojson_data html = geojson ∧
  total_mapped html = sum_list (j_count <$> geojson) ∧
  total_zips html = length geojson ∧
  virtual_count html = length virtual_opps ∧
  max_count html = py_max (j_count <$> geojson) 1.
Proof.
  unfold generate_html. destruct (map_result virtual_entry virtual_opps); [|done].
  simpl. intros [= <-]. simpl. by rewrite py_sum_sum_list.
Qed.

Lemma map_result_virtual_entry (opps : list row) :
  Forall has_display_fields opps →
  ∃ vs, map_result virtual_entry opps = Ok vs ∧ length vs = length opps.
Proof.
  induction 1 as [|o opps [[t Ht] [g Hg]] _ (vs & Hvs & Hlen)].
  - by exists [].
  - eexists (_ :: vs). simpl. unfold virtual_entry at 1, subscript.
    rewrite Ht, Hg. simpl. rewrite Hvs. simpl. by rewrite Hlen.
Qed.

Lemma two_lookups_split {A} (l : list A) i j x y :
  i < j → l !! i = Some x → l !! j = Some y →
  ∃ l1 l2 l3, l = l1 ++ x :: l2 ++ y :: l3.
Proof.
  intros Hij Hi Hj.
  pose proof (take_drop_middle l i x Hi) as Hl.
  assert (drop (S i) l !! (j - S i) = Some y) as Hj'.
  { rewrite lookup_drop. by replace (S i + (j - S i)) with j by lia. }
  pose proof (take_drop_middle _ _ _ Hj') as Hl'.
  exists (take i l), (take (j - S i) (drop (S i) l)),
         (drop (S (j - S i)) (drop (S i) l)).
  by rewrite Hl'.
Qed.

Section MatcherClaims.
Context `{CharTables} {G : Type}.
Implicit Types (by_zip : gmap pystr (list row)) (feat : feature G).

Lemma joins_zipcodes by_zip zip_key (feats : list (feature G)) jfs :
  Forall2 (joins by_zip zip_key) feats jfs →
  j_zipcode <$> jfs = resolved_zip zip_key <$> feats.
Proof.
  induction 1 as [|feat jf feats jfs (_ & Hz & _) _ IH]; [done|].
  csimpl. by rewrite Hz, IH.
Qed.

Lemma joins_count_positive by_zip zip_key (feats : list (feature G)) jfs :
  map_Forall (λ _ opps, opps ≠ []) by_zip →
  Forall2 (joins by_zip zip_key) feats jfs →
  Forall (λ jf, 1 ≤ j_count jf) jfs.
Proof.
  intros Hne. induction 1 as [|feat jf feats jfs Hj _ IH]; constructor; [|done].
  destruct Hj as (_ & _ & opps & Hopps & -> & _).
  apply Hne in Hopps. destruct opps; [done | simpl; lia].
Qed.

(** C2: with a detected zip key, well-formed boundary features and
    records that carry a title and an organization,
    [build_choropleth_geojson] returns; its features are, in order, one
    joined feature for each boundary feature whose zip value is a key of
    the aggregation, with the geometry of that feature, its zip value as
    [zipcode], the size of the bucket as [count] (at least 1 for the
    non-empty buckets of an aggregation) and the summaries of the bucket's
    records, and nothing for the other boundary features; the zip codes of
    the aggregation that no boundary feature carries are reported by the
    warning, which is printed exactly when there is one, gives their
    number and lists the ten smallest of them in ascending order (all of
    them when they are fewer), and does not turn the result into an
    error. *)
Theorem build_choropleth_geojson_join by_zip (boundaries : list (feature G)) zip_key :
  detected boundaries zip_key →
  Forall well_formed boundaries →
  map_Forall (λ _ opps, Forall has_display_fields opps) by_zip →
  map_Forall (λ _ opps, opps ≠ []) by_zip →
  ∃ out,
    build_choropleth_geojson by_zip boundaries = Ok out ∧
    Forall2 (joins by_zip zip_key)
      (filter (matches by_zip zip_key) boundaries) (features out) ∧
    Forall (λ jf, 1 ≤ j_count jf) (features out) ∧
    ∃ unmatched,
      (∀ z, z ∈ unmatched ↔
            z ∈ dom by_zip ∧
            ∀ feat, feat ∈ boundaries → resolved_zip zip_key feat ≠ z) ∧
      reports unmatched (warning out).
Proof.
  intros Hdet Hwf Hrows Hne.
  destruct (build_choropleth_geojson_spec by_zip boundaries zip_key Hdet Hwf Hrows)
    as (out & Hout & Hall & unmatched & Hmem & Hwarn).
  exists out. split; [done|]. split; [done|].
  split; [by eapply joins_count_positive|].
  exists unmatched. split; [|done].
  intros z. rewrite Hmem, (joins_zipcodes _ _ _ _ Hall).
  split; intros [Hdom Hno]; (split; [done|]).
  - intros feat Hfeat <-. apply Hno, list_elem_of_fmap. exists feat.
    split; [done|]. apply list_elem_of_filter. split; [|done].
    unfold matches. by apply elem_of_dom.
  - intros (feat & -> & Hfeat)%list_elem_of_fmap.
    apply list_elem_of_filter in Hfeat as [_ Hfeat]. by apply (Hno feat).
Qed.

(** C9: when two boundary features at different places have the same zip
    value and it is a key of the aggregation,
    [build_choropleth_geojson] returns a joined feature for each of them,
    both with that zip code, the full size of the bucket as count and the
    bucket's summaries; the zip codes of the output are then not distinct,
    the total-mapped figure of [generate_html] is at least twice the size
    of the bucket, and it exceeds the number of aggregated records when
    the bucket is not empty and is the only one. *)
Theorem duplicate_boundaries_repeat_bucket by_zip (boundaries : list (feature G))
    zip_key i j f1 f2 z opps :
  detected boundaries zip_key →
  Forall well_formed boundaries →
  map_Forall (λ _ opps, Forall has_display_fields opps) by_zip →
  i < j → boundaries !! i = Some f1 → boundaries !! j = Some f2 →
  resolved_zip zip_key f1 = z → resolved_zip zip_key f2 = z →
  by_zip !! z = Some opps →
  ∃ out i' j' jf1 jf2,
    build_choropleth_geojson by_zip boundaries = Ok out ∧
    length (features out) = length (filter (matches by_zip zip_key) boundaries) ∧
    i' < j' ∧ features out !! i' = Some jf1 ∧ features out !! j' = Some jf2 ∧
    joins by_zip zip_key f1 jf1 ∧ joins by_zip zip_key f2 jf2 ∧
    j_zipcode jf1 = z ∧ j_zipcode jf2 = z ∧
    j_count jf1 = length opps ∧ j_count jf2 = length opps ∧
    Forall2 summarizes opps (j_opportunities jf1) ∧
    Forall2 summarizes opps (j_opportunities jf2) ∧
    ¬ NoDup (j_zipcode <$> features out) ∧
    ∀ virtual_opps html,
      generate_html (features out) virtual_opps = Ok html →
      2 * length opps ≤ total_mapped html ∧
      (by_zip = {[z := opps]} → opps ≠ [] →
       length (bucket_rows by_zip) < total_mapped html).
Proof.
  intros Hdet Hwf Hrows Hij Hi Hj Hz1 Hz2 Hopps.
  destruct (build_choropleth_geojson_spec by_zip boundaries zip_key Hdet Hwf Hrows)
    as (out & Hout & Hall & _).
  destruct (two_lookups_split boundaries i j f1 f2 Hij Hi Hj)
    as (l1 & l2 & l3 & Hl).
  assert (matches by_zip zip_key f1) as Hm1 by (unfold matches; by rewrite Hz1, Hopps).
  assert (matches by_zip zip_key f2) as Hm2 by (unfold matches; by rewrite Hz2, Hopps).
  pose proof (Forall2_length _ _ _ Hall) as Hlen.
  rewrite Hl in Hall.
  rewrite filter_app, filter_cons_True, filter_app, filter_cons_True in Hall by done.
  apply Forall2_app_inv_l in Hall as (J1 & K1 & HJ1 & Hrest & Hfeatures).
  apply Forall2_cons_inv_l in Hrest as (jf1 & K2 & Hjf1 & Hrest & ->).
  apply Forall2_app_inv_l in Hrest as (J2 & K3 & HJ2 & Hrest & ->).
  apply Forall2_cons_inv_l in Hrest as (jf2 & J3 & Hjf2 & HJ3 & ->).
  assert (∀ feat jf, joins by_zip zip_key feat jf → resolved_zip zip_key feat = z →
            j_zipcode jf = z ∧ j_count jf = length opps ∧
            Forall2 summarizes opps (j_opportunities jf)) as Hfull.
  { intros feat jf (_ & Hzc & opps' & Hopps' & Hcount & Hsum) Hfz.
    rewrite Hzc, Hfz in Hopps'. rewrite Hzc, Hfz.
    assert (opps' = opps) as -> by congruence. done. }
  destruct (Hfull _ _ Hjf1 Hz1) as (Hzc1 & Hc1 & Hs1).
  destruct (Hfull _ _ Hjf2 Hz2) as (Hzc2 & Hc2 & Hs2).
  exists out, (length J1), (length J1 + S (length J2)), jf1, jf2.
  split; [done|]. split; [done|]. split; [lia|]. rewrite Hfeatures.
  split; [apply list_lookup_middle; done|]. split.
  { rewrite lookup_app_r by lia.
    replace (length J1 + S (length J2) - length J1) with (S (length J2)) by lia.
    simpl. by apply list_lookup_middle. }
  do 8 (split; [done|]). split.
  - rewrite !fmap_app, !fmap_cons, fmap_app, fmap_cons, Hzc1, Hzc2.
    intros [_ [_ Hnd]]%NoDup_app. apply NoDup_cons in Hnd as [Hnotin _].
    apply Hnotin, elem_of_app. right. by left.
  - intros virtual_opps html Hhtml.
    apply generate_html_Ok in Hhtml as (_ & Htotal & _).
    rewrite Htotal, !fmap_app, !fmap_cons, fmap_app, fmap_cons.
    rewrite !sum_list_with_app. simpl. rewrite sum_list_with_app. simpl.
    unfold id. rewrite Hc1, Hc2. split; [lia|].
    intros -> Hne. unfold bucket_rows. rewrite map_to_list_singleton. simpl.
    rewrite app_nil_r. destruct opps; [done | simpl; lia].
Qed.

End MatcherClaims.

(** The running maximum of [max]. *)
Lemma foldl_max_spec (xs : list nat) x :
  x ≤ foldl Nat.max x xs ∧
  Forall (λ y, y ≤ foldl Nat.max x xs) xs ∧
  (foldl Nat.max x xs = x ∨ foldl Nat.max x xs ∈ xs).
Proof.
  revert x. induction xs as [|y xs IH]; intros x; simpl.
  - split; [done|]. split; [constructor | by left].
  - destruct (IH (x `max` y)) as (Hle & Hall & Hin).
    split; [lia|]. split; [constructor; [lia | done]|].
    destruct Hin as [Heq|Hin]; [|right; by right].
    rewrite Heq. destruct (Nat.max_spec x y) as [[_ ->]|[_ ->]];
      [right; by left | by left].
Qed.

(** C8: the max-count of [generate_html] is the maximum of the counts of
    the joined features: whenever the function returns, it is at least
    the count of every feature and, when there is a feature, it is the
    count of one of them; over an empty feature list it is exactly 1.
    The function returns, with that max-count, whenever the virtual
    records carry a title and an organization, also over an empty
    feature list. *)
Theorem generate_html_max_count {G : Type} (geojson : list (joined_feature G))
    (virtual_opps : list row) :
  (∀ html, generate_html geojson virtual_opps = Ok html →
     Forall (λ jf, j_count jf ≤ max_count html) geojson ∧
     (geojson ≠ [] → ∃ jf, jf ∈ geojson ∧ j_count jf = max_count html) ∧
     (geojson = [] → max_count html = 1)) ∧
  (Forall has_display_fields virtual_opps →
   ∃ html, generate_html geojson virtual_opps = Ok html ∧
           max_count html = py_max (j_count <$> geojson) 1).
Proof.
  split.
  - intros html Hhtml. apply generate_html_Ok in Hhtml as (_ & _ & _ & _ & ->).
    destruct geojson as [|jf0 geojson]; csimpl.
    { split; [constructor|]. by split. }
    destruct (foldl_max_spec (j_count <$> geojson) (j_count jf0)) as (Hle & Hall & Hin).
    split; [|split; [|done]].
    + constructor; [done|]. by apply Forall_fmap in Hall.
    + intros _. destruct Hin as [Heq|Hin].
      * exists jf0. split; [by left | done].
      * apply list_elem_of_fmap in Hin as (jf & Heq & Hin). exists jf.
        split; [by right | done].
  - intros Hrows. destruct (map_result_virtual_entry _ Hrows) as (vs & Hvs & _).
    unfold generate_html. rewrite Hvs. simpl. by eexists.
Qed.

(** ** Scenarios *)

Section Scenarios.
Local Existing Instance ascii_tables.
Import Scenario.

Lemma scenario_detected : detected boundaries (lit "zip").
Proof. split; vm_compute; reflexivity. Qed.

Lemma scenario_overlapping_detected : detected overlapping (lit "zip").
Proof. split; vm_compute; reflexivity. Qed.

Lemma scenario_well_formed key zip g : well_formed (boundary key zip g).
Proof. by eexists _, _. Qed.

Lemma scenario_record_fields t o l : has_display_fields (record t o l).
Proof.
  unfold has_display_fields, record. split.
  - rewrite lookup_insert_eq. by eexists.
  - rewrite lookup_insert_ne by (by vm_compute). rewrite lookup_insert_eq.
    by eexists.
Qed.

Lemma scenario_by_zip_fields :
  map_Forall (λ _ opps, Forall has_display_fields opps) by_zip.
Proof.
  apply map_Forall_singleton. repeat constructor; apply scenario_record_fields.
Qed.

Lemma scenario_by_zip_nonempty : map_Forall (λ _ (opps : list row), opps ≠ []) by_zip.
Proof. by apply map_Forall_singleton. Qed.

(** The join example of the specification. *)
Example scenario_join :
  build_choropleth_geojson by_zip boundaries =
  Ok {| features :=
          [{| j_geometry := 1;
              j_zipcode := lit "90001";
              j_count := 2;
              j_opportunities :=
                [{| s_title := Some (lit "Food bank");
                    s_organization := Some (lit "LA Works");
                    s_date := Some []; s_time := Some [];
                    s_type := Some []; s_url := Some [] |};
                 {| s_title := Some (lit "Tutoring");
                    s_organization := Some (lit "Library");
                    s_date := Some []; s_time := Some [];
                    s_type := Some []; s_url := Some [] |}] |}];
        warning := None |}.
Proof. vm_compute. reflexivity. Qed.

(** Twelve zip codes without boundary: the warning counts them all and
    lists the ten smallest, in ascending order. *)
Example scenario_warning :
  (let* out := build_choropleth_geojson scattered boundaries in
   Ok (j_zipcode <$> features out, warning out))
  = Ok ([lit "90001"],
        Some (12, [lit "90101"; lit "90102"; lit "90103"; lit "90104"; lit "90105";
                   lit "90106"; lit "90107"; lit "90108"; lit "90109"; lit "90110"])).
Proof. vm_compute. reflexivity. Qed.

End Scenarios.

Section MatcherWitnesses.
Local Existing Instance ascii_tables.
Import Scenario.

Lemma build_choropleth_geojson_join_witness :
  ∃ out,
    build_choropleth_geojson by_zip boundaries = Ok out ∧
    Forall2 (joins by_zip (lit "zip"))
      (filter (matches by_zip (lit "zip")) boundaries) (features out) ∧
    Forall (λ jf, 1 ≤ j_count jf) (features out) ∧
    ∃ unmatched,
      (∀ z, z ∈ unmatched ↔
            z ∈ dom by_zip ∧
            ∀ feat, feat ∈ boundaries → resolved_zip (lit "zip") feat ≠ z) ∧
      reports unmatched (warning out).
Proof.
  apply (build_choropleth_geojson_join by_zip boundaries (lit "zip")).
  - apply scenario_detected.
  - repeat constructor; apply scenario_well_formed.
  - apply scenario_by_zip_fields.
  - apply scenario_by_zip_nonempty.
Defined.

Lemma duplicate_boundaries_repeat_bucket_witness :
  ∃ out i' j' jf1 jf2,
    build_choropleth_geojson by_zip overlapping = Ok out ∧
    length (features out) = length (filter (matches by_zip (lit "zip")) overlapping) ∧
    i' < j' ∧ features out !! i' = Some jf1 ∧ features out !! j' = Some jf2 ∧
    joins by_zip (lit "zip") (boundary "zip" "90001" 1) jf1 ∧
    joins by_zip (lit "zip") (boundary "zip" "90001" 3) jf2 ∧
    j_zipcode jf1 = lit "90001" ∧ j_zipcode jf2 = lit "90001" ∧
    j_count jf1 = 2 ∧ j_count jf2 = 2 ∧
    Forall2 summarizes [rec1; rec2] (j_opportunities jf1) ∧
    Forall2 summarizes [rec1; rec2] (j_opportunities jf2) ∧
    ¬ NoDup (j_zipcode <$> features out) ∧
    ∀ virtual_opps html,
      generate_html (features out) virtual_opps = Ok html →
      2 * 2 ≤ total_mapped html ∧
      (by_zip = {[lit "90001" := [rec1; rec2]]} → [rec1; rec2] ≠ [] →
       length (bucket_rows by_zip) < total_mapped html).
Proof.
  apply (duplicate_boundaries_repeat_bucket by_zip overlapping (lit "zip") 0 1
           (boundary "zip" "90001" 1) (boundary "zip" "90001" 3)
           (lit "90001") [rec1; rec2]).
  - apply scenario_overlapping_detected.
  - repeat constructor; apply scenario_well_formed.
  - apply scenario_by_zip_fields.
  - lia.
  - reflexivity.
  - reflexivity.
  - vm_compute; reflexivity.
  - vm_compute; reflexivity.
  - apply lookup_singleton_eq.
Defined.

(** The total-mapped figure of the overlapping boundaries: 4 for 2 records. *)
Example scenario_overlapping_total :
  (let* out := build_choropleth_geojson by_zip overlapping in
   let* html := generate_html (features out) [] in
   Ok (j_zipcode <$> features out, total_mapped html, length (bucket_rows by_zip)))
  = Ok ([lit "90001"; lit "90001"], 4, 2).
Proof. vm_compute. reflexivity. Qed.

Lemma generate_html_max_count_witness :
  ∃ html,
    generate_html Cases.geojson [rec1] = Ok html ∧
    Forall (λ jf, j_count jf ≤ max_count html) Cases.geojson ∧
    (Cases.geojson ≠ [] → ∃ jf, jf ∈ Cases.geojson ∧ j_count jf = max_count html) ∧
    (Cases.geojson = [] → max_count html = 1).
Proof.
  eexists. split; [reflexivity|].
  eapply (proj1 (generate_html_max_count Cases.geojson [rec1])). reflexivity.
Defined.

(** The max-count of two features with the counts 2 and 5, and of none. *)
Example scenario_max_count :
  (let* html := generate_html Cases.geojson [rec1] in Ok (max_count html)) = Ok 5 ∧
  (let* html := generate_html (G := nat) [] [rec1] in Ok (max_count html)) = Ok 1.
Proof. split; vm_compute; reflexivity. Qed.

(** C6 at the failing input: the only property of the boundary feature has
    the empty string as key and a 5-digit value.  [_find_zip_property]
    returns that key, and [build_choropleth_geojson] raises the error of
    the missing key all the same; under any other key name the same data
    is joined. *)
Theorem empty_key_not_detected :
  (∀ feat, feat ∈ unnamed_key → _find_zip_property feat = Ok (Some [])) ∧
  build_choropleth_geojson by_zip unnamed_key = Raise (ValueError [[]]) ∧
  (∃ out, build_choropleth_geojson by_zip
            [{| f_properties := PropsDict [(lit "k", JStr (lit "90001"))];
                f_geometry := Some 1 |}] = Ok out ∧
          j_zipcode <$> features out = [lit "90001"]).
Proof.
  split.
  { intros feat ->%list_elem_of_singleton. vm_compute. reflexivity. }
  split; [vm_compute; reflexivity|].
  eexists. split; [vm_compute; reflexivity|]. vm_compute. reflexivity.
Qed.

End MatcherWitnesses.

(** ** The field extractor *)

Section ExtractorFacts.
Context `{CharTables}.

Lemma lstrip_nil (s : pystr) :
  lstrip s = [] ↔ Forall (λ c, is_space c = true) s.
Proof.
  induction s as [|c s IH]; simpl.
  - split; [constructor | done].
  - destruct (is_space c) eqn:Hc.
    + rewrite IH. split; [by constructor | by inversion 1].
    + split; [done|]. inversion 1; congruence.
Qed.

Lemma lstrip_head (s : pystr) c t : lstrip s = c :: t → is_space c = false.
Proof.
  induction s as [|c' s IH]; simpl; [done|].
  destruct (is_space c') eqn:Hc; [done|]. by intros [= <- _].
Qed.

Lemma strip_nil (s : pystr) :
  strip s = [] ↔ Forall (λ c, is_space c = true) s.
Proof.
  unfold strip. rewrite <- (lstrip_nil s). split.
  - intros Hrev. apply (f_equal reverse) in Hrev.
    rewrite reverse_involutive in Hrev. simpl in Hrev.
    apply lstrip_nil, Forall_reverse in Hrev.
    rewrite reverse_involutive in Hrev.
    destruct (lstrip s) as [|c t] eqn:Hs; [done|].
    apply lstrip_head in Hs. inversion Hrev; congruence.
  - by intros ->.
Qed.

Lemma strip_nonempty (s : pystr) : strip s ≠ [] ↔ has_visible_text s.
Proof.
  rewrite strip_nil. unfold has_visible_text.
  induction s as [|c s IH].
  - split; [intros Hs; destruct Hs; constructor | by inversion 1].
  - rewrite Exists_cons, <- IH, Forall_cons. destruct (is_space c); split.
    + intros Hs. right. intros Hall. by apply Hs.
    + intros [?|Hs] [_ Hall]; [done | by apply Hs].
    + by left.
    + by intros _ [? _].
Qed.

Lemma optional_text_absent inner_text :
  optional_text (Ok 0) inner_text = Ok None.
Proof. done. Qed.

(** What a successful extraction read and stored. *)
Lemma _extract_row_Ok now row r :
  _extract_row now row = Ok r →
  ∃ t href cls o org_href w iso date_str time_str dur d dist,
    opp_link_inner_text row = Ok t ∧ opp_link_href row = Ok href ∧
    opp_link_class row = Ok cls ∧
    org_link_inner_text row = Ok o ∧ org_link_href row = Ok org_href ∧
    where_cell_inner_text row = Ok w ∧ time_cell_data_order row = Ok iso ∧
    optional_text (date_el_count row) (date_el_inner_text row) = Ok date_str ∧
    optional_text (time_el_count row) (time_el_inner_text row) = Ok time_str ∧
    optional_text (dur_el_count row) (dur_el_inner_text row) = Ok dur ∧
    ongoing_fallback date_str (time_cell_inner_text row) = Ok d ∧
    dist_cell_inner_text row = Ok dist ∧
    r = {| title := strip t; organization := strip o; location := strip w;
           date := d; time := time_str; duration := dur; datetime_iso := iso;
           distance := Some (strip dist);
           opportunity_type :=
             classify OPP_TYPE_CLASSES (or_empty cls) (lit "Volunteer Opportunity");
           opportunity_url := resolve_url href;
           opportunity_id := _extract_id_from_href href;
           organization_url := resolve_url org_href;
           scraped_at := now |}.
Proof.
  unfold _extract_row.
  destruct (opp_link_inner_text row) as [t|]; [cbn [bind]|done].
  destruct (opp_link_href row) as [href|]; [cbn [bind]|done].
  destruct (opp_link_class row) as [cls|]; [cbn [bind]|done].
  destruct (org_link_inner_text row) as [o|]; [cbn [bind]|done].
  destruct (org_link_href row) as [org_href|]; [cbn [bind]|done].
  destruct (where_cell_inner_text row) as [w|]; [cbn [bind]|done].
  destruct (time_cell_data_order row) as [iso|]; [cbn [bind]|done].
  destruct (optional_text (date_el_count row) _) as [date_str|]; [cbn [bind]|done].
  destruct (optional_text (time_el_count row) _) as [time_str|]; [cbn [bind]|done].
  destruct (optional_text (dur_el_count row) _) as [dur|]; [cbn [bind]|done].
  destruct (ongoing_fallback date_str _) as [d|] eqn:Hd; [cbn [bind]|done].
  destruct (dist_cell_inner_text row) as [dist|]; [cbn [bind]|done].
  intros [= <-].
  exists t, href, cls, o, org_href, w, iso, date_str, time_str, dur, d, dist.
  repeat (split; [done|]). reflexivity.
Qed.

End ExtractorFacts.

Section ExtractorClaims.
Context `{CharTables}.

(** C3, as amended: a record returned by [_extract_row] has as title and
    organization the stripped texts of the two anchors of the row, so that
    each is non-empty exactly when the text of its anchor has a character
    that is not white space; extraction raises when the text of one of the
    two anchors cannot be read. *)
Theorem extract_row_title_organization now row :
  (∀ r, _extract_row now row = Ok r →
     ∃ t o, opp_link_inner_text row = Ok t ∧ org_link_inner_text row = Ok o ∧
            title r = strip t ∧ organization r = strip o ∧
            (title r ≠ [] ↔ has_visible_text t) ∧
            (organization r ≠ [] ↔ has_visible_text o)) ∧
  (∀ e, opp_link_inner_text row = Raise e → _extract_row now row = Raise e) ∧
  (∀ e, org_link_inner_text row = Raise e → ∃ e', _extract_row now row = Raise e').
Proof.
  split; [|split].
  - intros r Hr.
    apply _extract_row_Ok in Hr
      as (t & href & cls & o & org_href & w & iso & ds & ts & dur & d & dist
          & Ht & _ & _ & Ho & _ & _ & _ & _ & _ & _ & _ & _ & ->).
    exists t, o. simpl. rewrite !strip_nonempty. done.
  - intros e He. unfold _extract_row. by rewrite He.
  - intros e He. unfold _extract_row.
    destruct (opp_link_inner_text row); [cbn [bind]|by eexists].
    destruct (opp_link_href row); [cbn [bind]|by eexists].
    destruct (opp_link_class row); [cbn [bind]|by eexists].
    rewrite He. by eexists.
Qed.

(** C5: for a row without date sub-element whose time cell has the raw text
    [raw], the date of the record is ["Ongoing"] if the lower-cased,
    stripped [raw] contains ["ongoing"] and [None] otherwise, whatever the
    time and duration sub-elements are; the missing date sub-element is
    not read, and extraction returns when the other reads answer. *)
Theorem extract_row_ongoing now row raw :
  date_el_count row = Ok 0 →
  time_cell_inner_text row = Ok raw →
  (∀ r, _extract_row now row = Ok r → date r = ongoing_or_none raw) ∧
  (other_reads_succeed row →
   ∃ r, _extract_row now row = Ok r ∧ date r = ongoing_or_none raw) ∧
  (∀ row' r r',
     date_el_count row' = Ok 0 → time_cell_inner_text row' = Ok raw →
     _extract_row now row = Ok r → _extract_row now row' = Ok r' →
     date r' = date r).
Proof.
  intros Hcount Hraw.
  assert (∀ row0 r0, date_el_count row0 = Ok 0 → time_cell_inner_text row0 = Ok raw →
            _extract_row now row0 = Ok r0 → date r0 = ongoing_or_none raw) as Hdate.
  { intros row0 r0 Hc0 Hraw0 Hr0.
    apply _extract_row_Ok in Hr0
      as (t & href & cls & o & org_href & w & iso & ds & ts & dur & d & dist
          & _ & _ & _ & _ & _ & _ & _ & Hds & _ & _ & Hd & _ & ->).
    rewrite Hc0, optional_text_absent in Hds. injection Hds as <-.
    rewrite Hraw0 in Hd. unfold ongoing_fallback in Hd. simpl in Hd.
    unfold ongoing_or_none. simpl.
    destruct (contains _ _); by injection Hd as <-. }
  split; [intros r Hr; by apply (Hdate row r)|]. split.
  - intros ([t Ht] & [href Hhref] & [cls Hcls] & [o Ho] & [oh Hoh] & [w Hw]
            & [iso Hiso] & [ts Hts] & [dur Hdur] & [dist Hdist]).
    unfold _extract_row.
    rewrite Ht, Hhref, Hcls, Ho, Hoh, Hw, Hiso, Hcount, optional_text_absent,
      Hts, Hdur, Hraw, Hdist.
    cbn [bind]. unfold ongoing_fallback, ongoing_or_none. simpl.
    destruct (contains _ _); cbn [bind]; by eexists.
  - intros row' r r' Hc' Hraw' Hr Hr'.
    rewrite (Hdate row r), (Hdate row' r'); done.
Qed.

(** C7, as amended: the URLs of a record returned by [_extract_row] are
    the hrefs of the two anchors, with [BASE_URL] put before an href that
    starts with ["/"] and any other href, or a missing one, kept as it is;
    a stored URL is therefore absolute when its href starts with ["/"] or
    is absolute itself. *)
Theorem extract_row_urls now row :
  (∀ r, _extract_row now row = Ok r →
     ∃ href org_href,
       opp_link_href row = Ok href ∧ org_link_href row = Ok org_href ∧
       opportunity_url r = resolve_url href ∧
       organization_url r = resolve_url org_href) ∧
  resolve_url None = None ∧
  (∀ h, startswith h (lit "/") = true →
        resolve_url (Some h) = Some (BASE_URL ++ h)) ∧
  (∀ h, startswith h (lit "/") = false → resolve_url (Some h) = Some h) ∧
  (∀ h u, resolve_url (Some h) = Some u →
          startswith h (lit "/") = true ∨ is_absolute_url h = true →
          is_absolute_url u = true).
Proof.
  assert (∀ h, startswith h (lit "/") = true →
            resolve_url (Some h) = Some (BASE_URL ++ h)) as Hroot.
  { intros h Hh. unfold resolve_url. rewrite Hh. by destruct h. }
  assert (∀ h, startswith h (lit "/") = false → resolve_url (Some h) = Some h)
    as Hother.
  { intros h Hh. unfold resolve_url. rewrite Hh. by rewrite andb_false_r. }
  split; [|split; [done|split; [done|split; [done|]]]].
  - intros r Hr.
    apply _extract_row_Ok in Hr
      as (t & href & cls & o & org_href & w & iso & ds & ts & dur & d & dist
          & _ & Hhref & _ & _ & Hoh & _ & _ & _ & _ & _ & _ & _ & ->).
    by exists href, org_href.
  - intros h u Hu Hh. destruct (startswith h (lit "/")) eqn:Hs.
    + rewrite Hroot in Hu by done. by injection Hu as <-.
    + rewrite Hother in Hu by done. injection Hu as <-. by destruct Hh.
Qed.

End ExtractorClaims.

Section ExtractorWitnesses.
Local Existing Instance ascii_tables.
Import Scenario.

(** C3 as the specification states it fails: an anchor with empty text gives a
    record with an empty title. *)
Lemma blank_anchor_yields_empty_title :
  ¬ (∀ (T : CharTables) now row r,
       @_extract_row T now row = Ok r → title r ≠ [] ∧ organization r ≠ []).
Proof.
  intros Hall.
  destruct (Hall ascii_tables now
              (listing "" "LA Works" "/opportunity/a0CQg00009Z8TdkMAF" "Ongoing")
              _ eq_refl) as [Ht _].
  by apply Ht.
Qed.

(** C7 as the specification states it fails: an href that is relative to the page is
    stored as it is. *)
Lemma relative_href_kept_relative :
  ¬ (∀ (T : CharTables) now row r u,
       @_extract_row T now row = Ok r → opportunity_url r = Some u →
       is_absolute_url u = true).
Proof.
  intros Hall.
  pose proof (Hall ascii_tables now
                (listing "Food bank" "LA Works" "opportunity/a0CQg00009Z8TdkMAF" "Ongoing")
                _ _ eq_refl eq_refl) as Habs.
  vm_compute in Habs. done.
Qed.

Lemma extract_row_title_organization_witness :
  ∃ r, _extract_row now (listing " Food bank " "LA Works" "/opportunity/a0C" "") = Ok r ∧
  ∃ t o, opp_link_inner_text (listing " Food bank " "LA Works" "/opportunity/a0C" "") = Ok t ∧
         org_link_inner_text (listing " Food bank " "LA Works" "/opportunity/a0C" "") = Ok o ∧
         title r = strip t ∧ organization r = strip o ∧
         (title r ≠ [] ↔ has_visible_text t) ∧
         (organization r ≠ [] ↔ has_visible_text o).
Proof.
  eexists. split; [reflexivity|].
  eapply (proj1 (extract_row_title_organization now
                   (listing " Food bank " "LA Works" "/opportunity/a0C" ""))).
  reflexivity.
Defined.

Lemma extract_row_ongoing_witness :
  ∃ r, _extract_row now (listing "Food bank" "LA Works" "/opportunity/a0C" " ONGOING ") = Ok r ∧
       date r = ongoing_or_none (lit " ONGOING ").
Proof.
  eexists. split; [reflexivity|].
  eapply (proj1 (extract_row_ongoing now
                   (listing "Food bank" "LA Works" "/opportunity/a0C" " ONGOING ")
                   (lit " ONGOING ") eq_refl eq_refl)).
  reflexivity.
Defined.

Lemma extract_row_urls_witness :
  ∃ r, _extract_row now (listing "Food bank" "LA Works" "/opportunity/a0C" "") = Ok r ∧
  ∃ href org_href,
    opp_link_href (listing "Food bank" "LA Works" "/opportunity/a0C" "") = Ok href ∧
    org_link_href (listing "Food bank" "LA Works" "/opportunity/a0C" "") = Ok org_href ∧
    opportunity_url r = resolve_url href ∧
    organization_url r = resolve_url org_href.
Proof.
  eexists. split; [reflexivity|].
  eapply (proj1 (extract_row_urls now
                   (listing "Food bank" "LA Works" "/opportunity/a0C" ""))).
  reflexivity.
Defined.

(** The record of a listing whose time cell only says "Ongoing". *)
Example scenario_extract_row :
  _extract_row now (listing " Food bank " "LA Works" "/opportunity/a0CQg00009Z8TdkMAF" "Ongoing")
  = Ok {| title := lit "Food bank";
          organization := lit "LA Works";
          location := lit "Los Angeles, CA 90065";
          date := Some (lit "Ongoing");
          time := None;
          duration := None;
          datetime_iso := None;
          distance := Some (lit "2.4 mi");
          opportunity_type := lit "Special Event";
          opportunity_url :=
            Some (lit "https://volunteer.laworks.com/opportunity/a0CQg00009Z8TdkMAF");
          opportunity_id := Some (lit "a0CQg00009Z8TdkMAF");
          organization_url := Some (lit "https://volunteer.laworks.com/organization/001");
          scraped_at := now |}.
Proof. vm_compute. reflexivity. Qed.

End ExtractorWitnesses.

(** ** The incremental loader *)

Section LoaderFacts.
Context {P : Type} (ops : page_ops P).

Lemma clicks_snoc (trace : list action) a :
  clicks (trace ++ [a]) = clicks trace + clicks [a].
Proof. unfold clicks. apply count_occ_app. Qed.

(** One iteration performs at most one click and at most seven operations. *)
Lemma load_loop_trace n click_num st :
  clicks (load_loop ops n click_num st).2.2 ≤ clicks st.2 + n ∧
  length (load_loop ops n click_num st).2.2 ≤ length st.2 + 7 * n.
Proof.
  unfold clicks.
  revert click_num st. induction n as [|n IH]; intros click_num [p trace].
  - simpl. lia.
  - simpl. unfold pbind, perform, returns, pret, sleep. simpl.
    destruct (result_row_count ops p) as [[count_before|e] p1]; simpl;
      try (rewrite !count_occ_app, !length_app; simpl; lia).
    destruct (load_more_count ops p1) as [[c|e] p2]; simpl;
      try (rewrite !count_occ_app, !length_app; simpl; lia).
    destruct (c =? 0); simpl.
    { rewrite !count_occ_app, !length_app. simpl. lia. }
    destruct (load_more_is_visible ops p2) as [[[|]|e] p3]; simpl;
      try (rewrite !count_occ_app, !length_app; simpl; lia).
    destruct (load_more_scroll ops p3) as [[[]|e] p4]; simpl;
      try (rewrite !count_occ_app, !length_app; simpl; lia).
    destruct (load_more_click ops p4) as [[[]|e] p5]; simpl;
      try (rewrite !count_occ_app, !length_app; simpl; lia).
    destruct (wait_for_more_rows ops count_before p5) as [[[]|e] p6]; simpl;
      try (rewrite !count_occ_app, !length_app; simpl; lia).
    match goal with
    | |- context [load_loop ops n ?k ?st] => destruct (IH k st) as [IHc IHl]
    end.
    simpl in IHc, IHl. rewrite !count_occ_app in IHc. rewrite !length_app in IHl.
    simpl in IHc, IHl. lia.
Qed.

Lemma load_loop_returns n click_num st :
  page_answers ops → is_Ok (load_loop ops n click_num st).1.
Proof.
  intros (Hrows & Hcount & Hvis & Hscroll & Hclick).
  revert click_num st. induction n as [|n IH]; intros click_num [p trace].
  - by eexists.
  - simpl. unfold pbind, perform, returns, pret, sleep. simpl.
    pose proof (Hrows p) as [count_before Hr].
    destruct (result_row_count ops p) as [rr p1]. simpl in Hr. subst rr. simpl.
    pose proof (Hcount p1) as [c Hc].
    destruct (load_more_count ops p1) as [rc p2]. simpl in Hc. subst rc. simpl.
    destruct (c =? 0); simpl; [by eexists|].
    pose proof (Hvis p2) as [v Hv].
    destruct (load_more_is_visible ops p2) as [rv p3]. simpl in Hv. subst rv.
    destruct v; simpl; [|by eexists].
    pose proof (Hscroll p3) as [u Hu].
    destruct (load_more_scroll ops p3) as [ru p4]. simpl in Hu. subst ru. simpl.
    pose proof (Hclick p4) as [u' Hu'].
    destruct (load_more_click ops p4) as [ru p5]. simpl in Hu'. subst ru. simpl.
    destruct (wait_for_more_rows ops count_before p5) as [[[]|e] p6]; simpl;
      [|by eexists].
    apply IH.
Qed.

End LoaderFacts.

(** C4: whatever the page answers, [_load_all_results] clicks at most
    [MAX_LOAD_MORE_CLICKS] times and performs at most
    [7 * MAX_LOAD_MORE_CLICKS + 1] operations, also when one of them
    raises; an iteration that finds no control, or a control that is not
    visible, ends the loop normally without a click, and an iteration
    whose wait for more rows fails ends it normally after its click,
    whatever the exception; after the loop has ended normally the loader
    returns exactly when the final count of the rows answers; and when
    the counts and the operations on the control answer, the loader
    returns, whether or not the rows ever stop growing. *)
Theorem load_all_results_bounded {P : Type} (ops : page_ops P) (p : P) :
  clicks (_load_all_results ops (p, [])).2.2 ≤ MAX_LOAD_MORE_CLICKS ∧
  length (_load_all_results ops (p, [])).2.2 ≤ 7 * MAX_LOAD_MORE_CLICKS + 1 ∧
  (∀ n click_num q trace count_before q1 q2,
     result_row_count ops q = (Ok count_before, q1) →
     load_more_count ops q1 = (Ok 0, q2) →
     load_loop ops (S n) click_num (q, trace) =
     (Ok NoLoadMoreButton, (q2, trace ++ [RowCount; LoadMoreCount]))) ∧
  (∀ n click_num q trace count_before q1 c q2 q3,
     result_row_count ops q = (Ok count_before, q1) →
     load_more_count ops q1 = (Ok (S c), q2) →
     load_more_is_visible ops q2 = (Ok false, q3) →
     load_loop ops (S n) click_num (q, trace) =
     (Ok NoLoadMoreButton, (q3, trace ++ [RowCount; LoadMoreCount; IsVisible]))) ∧
  (∀ n click_num q trace count_before q1 c q2 q3 q4 q5 e q6,
     result_row_count ops q = (Ok count_before, q1) →
     load_more_count ops q1 = (Ok (S c), q2) →
     load_more_is_visible ops q2 = (Ok true, q3) →
     load_more_scroll ops q3 = (Ok tt, q4) →
     load_more_click ops q4 = (Ok tt, q5) →
     wait_for_more_rows ops count_before q5 = (Raise e, q6) →
     load_loop ops (S n) click_num (q, trace) =
     (Ok (NoNewRows click_num),
      (q6, trace ++ [RowCount; LoadMoreCount; IsVisible; ScrollIntoView; Click;
                     WaitForRows count_before]))) ∧
  (∀ e st',
     load_loop ops MAX_LOAD_MORE_CLICKS 1 (p, []) = (Ok e, st') →
     ∀ r q, result_row_count ops st'.1 = (r, q) →
       _load_all_results ops (p, []) =
       ((let* final_count := r in Ok (e, final_count)), (q, st'.2 ++ [RowCount]))) ∧
  (page_answers ops → is_Ok (_load_all_results ops (p, [])).1).
Proof.
  assert (∀ st, (_load_all_results ops st).2.2 =
                match (load_loop ops MAX_LOAD_MORE_CLICKS 1 st).1 with
                | Ok _ => (load_loop ops MAX_LOAD_MORE_CLICKS 1 st).2.2 ++ [RowCount]
                | Raise _ => (load_loop ops MAX_LOAD_MORE_CLICKS 1 st).2.2
                end) as Htrace.
  { intros st. unfold _load_all_results, pbind, perform, pret.
    destruct (load_loop ops MAX_LOAD_MORE_CLICKS 1 st) as [[e|e] [q trace]]; [|done].
    simpl. by destruct (result_row_count ops q) as [[?|?] ?]. }
  destruct (load_loop_trace ops MAX_LOAD_MORE_CLICKS 1 (p, [])) as [Hc Hl].
  change (clicks (p, []).2) with 0 in Hc. change (length (p, []).2) with 0 in Hl.
  split; [|split; [|split; [|split; [|split; [|split]]]]].
  - rewrite Htrace. destruct (load_loop ops MAX_LOAD_MORE_CLICKS 1 (p, [])).1;
      [rewrite clicks_snoc; change (clicks [RowCount]) with 0|]; lia.
  - rewrite Htrace. destruct (load_loop ops MAX_LOAD_MORE_CLICKS 1 (p, [])).1;
      [rewrite length_app; change (length [RowCount]) with 1|]; lia.
  - intros n click_num q trace count_before q1 q2 Hrows Hcount.
    simpl. unfold pbind, perform, pret. simpl. rewrite Hrows. simpl.
    rewrite Hcount. simpl. by rewrite <- app_assoc.
  - intros n click_num q trace count_before q1 c q2 q3 Hrows Hcount Hvis.
    simpl. unfold pbind, perform, pret. simpl. rewrite Hrows. simpl.
    rewrite Hcount. simpl. rewrite Hvis. simpl. by rewrite <- !app_assoc.
  - intros n click_num q trace count_before q1 c q2 q3 q4 q5 e q6
      Hrows Hcount Hvis Hscroll Hclick Hwait.
    simpl. unfold pbind, perform, returns, pret. simpl. rewrite Hrows. simpl.
    rewrite Hcount. simpl. rewrite Hvis. simpl. rewrite Hscroll. simpl.
    rewrite Hclick. simpl. rewrite Hwait. simpl. by rewrite <- !app_assoc.
  - intros e [q' trace] Hloop r q Hfinal.
    unfold _load_all_results, pbind, perform, pret. rewrite Hloop.
    cbn [fst snd] in *. rewrite Hfinal. by destruct r.
  - intros Hctl.
    destruct (load_loop_returns ops MAX_LOAD_MORE_CLICKS 1 (p, []) Hctl) as [e He].
    unfold _load_all_results, pbind, perform, pret.
    destruct (load_loop ops MAX_LOAD_MORE_CLICKS 1 (p, [])) as [r [q trace]].
    simpl in He. subst r. simpl.
    destruct Hctl as (Hrows & _). pose proof (Hrows q) as [n Hn].
    destruct (result_row_count ops q) as [rn q']. simpl in Hn. subst rn. by eexists.
Qed.

Section LoaderWitnesses.
Import Scenario.

Lemma endless_page_answers : page_answers endless.
Proof. repeat split; intros p; by eexists. Qed.

Lemma load_all_results_bounded_witness :
  page_answers endless ∧ is_Ok (_load_all_results endless (0, [])).1.
Proof.
  split; [apply endless_page_answers|].
  apply (load_all_results_bounded endless 0), endless_page_answers.
Defined.

(** A control that always brings more rows is clicked 20 times. *)
Example scenario_endless :
  let r := _load_all_results endless (0, []) in
  r.1 = Ok (RangeExhausted, 200) ∧ clicks r.2.2 = 20.
Proof. vm_compute. done. Qed.

(** Rows that do not grow end the loader after the first click. *)
Example scenario_stalled :
  _load_all_results stalled (30, []) =
  (Ok (NoNewRows 1, 30),
   (30, [RowCount; LoadMoreCount; IsVisible; ScrollIntoView; Click;
         WaitForRows 30; RowCount])).
Proof. vm_compute. reflexivity. Qed.

Example scenario_finished :
  _load_all_results finished (30, []) =
  (Ok (NoLoadMoreButton, 30), (30, [RowCount; LoadMoreCount; RowCount])).
Proof. vm_compute. reflexivity. Qed.

Example scenario_hidden :
  _load_all_results hidden (30, []) =
  (Ok (NoLoadMoreButton, 30), (30, [RowCount; LoadMoreCount; IsVisible; RowCount])).
Proof. vm_compute. reflexivity. Qed.

(** A page closed after its second click: the exception of the wait is
    caught, the one of the final count is the loader's. *)
Example scenario_closing :
  _load_all_results closing (2, []) =
  (Raise (PlaywrightError (lit "Target closed")),
   (0, [RowCount; LoadMoreCount; IsVisible; ScrollIntoView; Click; WaitForRows 30;
        Sleep;
        RowCount; LoadMoreCount; IsVisible; ScrollIntoView; Click; WaitForRows 30;
        RowCount])).
Proof. vm_compute. reflexivity. Qed.

(** A page that is closed from the start: the first count raises. *)
Example scenario_closed :
  _load_all_results closing (0, []) =
  (Raise (PlaywrightError (lit "Target closed")), (0, [RowCount])).
Proof. vm_compute. reflexivity. Qed.

End LoaderWitnesses.

(** ** Key detection *)

Section DetectionFacts.
Context `{CharTables} {G : Type}.
Implicit Types (feat : feature G) (p : props).

(** A full match is a string of exactly five digits. *)
Lemma ZIP_RE_fullmatch_spec (s : pystr) :
  digits_are_word →
  is_Some (ZIP_RE_fullmatch s) ↔
  length s = 5 ∧ Forall (λ c, is_digit c = true) s.
Proof.
  intros Hdw. unfold ZIP_RE_fullmatch. split.
  - intros [g Hg]. destruct (ZIP_RE_match_at s 0) as [g'|] eqn:Hm; [|done].
    case_bool_decide as Hlen; [|done]. split; [done|].
    apply ZIP_RE_match_at_spec in Hm as [(Hd & _) _]; [|done].
    apply Forall_lookup. intros k c Hk.
    destruct (Hd k) as (c' & Hc' & Hdig).
    { apply lookup_lt_Some in Hk. lia. }
    simpl in Hc'. congruence.
  - intros [Hlen Hall].
    assert (ZIP_RE_match_at s 0 = Some (take 5 (drop 0 s))) as ->.
    { apply ZIP_RE_match_at_spec; [done|]. split; [|done]. split; [|split].
      - intros k Hk. simpl. destruct (s !! k) as [c|] eqn:Hc.
        + exists c. split; [done|]. by eapply (Forall_lookup_1 _ _ _ _ Hall).
        + apply lookup_ge_None in Hc. lia.
      - intros j Hj. lia.
      - intros c Hc. apply lookup_lt_Some in Hc. simpl in Hc. lia. }
    rewrite bool_decide_eq_true_2 by done. by eexists.
Qed.

Lemma is_zip_value_default : is_zip_value (JStr []) = false.
Proof. done. Qed.

Lemma props_get_zip p key :
  is_zip_value (props_get p key (JStr [])) = true →
  ∃ v, (key, v) ∈ p ∧ is_zip_value v = true.
Proof.
  induction p as [|[k v] p IH]; simpl.
  - done.
  - case_bool_decide as Hk.
    + subst k. intros Hv. exists v. split; [by left | done].
    + intros Hv. destruct (IH Hv) as (v' & Hin & Hz).
      exists v'. split; [by right | done].
Qed.

Lemma find_candidate_Some p keys key :
  find_candidate p keys = Some key →
  key ∈ keys ∧ is_zip_value (props_get p key (JStr [])) = true.
Proof.
  induction keys as [|k keys IH]; simpl; [done|].
  destruct (is_zip_value (props_get p k (JStr []))) eqn:Hk.
  - intros [= <-]. split; [by left | done].
  - intros [Hin Hz]%IH. split; [by right | done].
Qed.

(** The scan of all keys returns the key of the first item whose value is a
    zip code. *)
Lemma find_item_Some p key :
  find_item p = Some key ↔
  ∃ p1 v p2, p = p1 ++ (key, v) :: p2 ∧ is_zip_value v = true ∧
             Forall (λ kv, is_zip_value kv.2 = false) p1.
Proof.
  induction p as [|[k v] p IH]; simpl.
  - split; [done|]. intros (p1 & v & p2 & Hp & _). by destruct p1.
  - destruct (is_zip_value v) eqn:Hv.
    + split.
      * intros [= <-]. exists [], v, p. by repeat split.
      * intros (p1 & v' & p2 & Hp & Hz & Hall). destruct p1 as [|kv p1].
        -- by simplify_eq/=.
        -- simplify_eq/=. inversion Hall; simpl in *; congruence.
    + rewrite IH. split.
      * intros (p1 & v' & p2 & -> & Hz & Hall).
        exists ((k, v) :: p1), v', p2. split; [done|]. split; [done|].
        by constructor.
      * intros (p1 & v' & p2 & Hp & Hz & Hall). destruct p1 as [|kv p1].
        -- simplify_eq/=. congruence.
        -- simplify_eq/=. exists p1, v', p2. split; [done|].
           split; [done|]. by inversion Hall.
Qed.

Lemma find_item_None p :
  find_item p = None ↔ Forall (λ kv, is_zip_value kv.2 = false) p.
Proof.
  induction p as [|[k v] p IH]; simpl.
  - split; [constructor | done].
  - destruct (is_zip_value v) eqn:Hv.
    + split; [done|]. inversion 1; simpl in *; congruence.
    + rewrite IH. split; [by constructor | by inversion 1].
Qed.

(** [_find_zip_property] answers with a key of the feature whose value is a
    zip code, and finds one whenever the feature has one. *)
Lemma _find_zip_property_sound feat p key :
  f_properties feat = PropsDict p →
  _find_zip_property feat = Ok (Some key) →
  ∃ v, (key, v) ∈ p ∧ is_zip_value v = true.
Proof.
  intros Hp. unfold _find_zip_property. rewrite Hp.
  destruct (find_candidate p candidates) as [k|] eqn:Hc.
  - intros [= <-]. apply find_candidate_Some in Hc as [_ Hz].
    by apply props_get_zip.
  - intros [= Hitem]. apply find_item_Some in Hitem as (p1 & v & p2 & -> & Hz & _).
    exists v. split; [|done]. apply elem_of_app. right. by left.
Qed.

Lemma _find_zip_property_complete feat p :
  f_properties feat = PropsDict p →
  Exists (λ kv, is_zip_value kv.2 = true) p →
  ∃ key, _find_zip_property feat = Ok (Some key).
Proof.
  intros Hp Hex. unfold _find_zip_property. rewrite Hp.
  destruct (find_candidate p candidates) as [k|]; [by eexists|].
  destruct (find_item p) as [k|] eqn:Hitem; [by eexists|].
  apply find_item_None in Hitem. apply Exists_exists in Hex as (kv & Hin & Hz).
  rewrite Forall_forall in Hitem. apply Hitem in Hin. congruence.
Qed.

Lemma _find_zip_property_Raise feat e :
  _find_zip_property feat = Raise e → e = AttributeError.
Proof.
  unfold _find_zip_property. destruct (f_properties feat) as [| |p]; try done.
  - by intros [= <-].
  - by destruct (find_candidate p candidates).
Qed.

Lemma detect_zip_key_Raise (feats : list (feature G)) zip_key e :
  detect_zip_key feats zip_key = Raise e → e = AttributeError.
Proof.
  revert zip_key. induction feats as [|feat feats IH]; intros zip_key; simpl; [done|].
  destruct (_find_zip_property feat) as [k|e'] eqn:Hk; simpl.
  - destruct (truthy (or_empty k)); [done | apply IH].
  - intros [= <-]. by eapply _find_zip_property_Raise.
Qed.

Lemma map_result_summarize_Raise (opps : list row) e :
  map_result summarize opps = Raise e → ∃ k, e = KeyError k.
Proof.
  induction opps as [|o opps IH]; simpl; [done|].
  unfold summarize at 1, subscript.
  destruct (o !! lit "title"); simpl; [|intros [= <-]; by eexists].
  destruct (o !! lit "organization"); simpl; [|intros [= <-]; by eexists].
  destruct (map_result summarize opps); simpl; [done|].
  intros [= <-]. by apply IH.
Qed.

Lemma join_feature_Raise by_zip zip_key feat e :
  join_feature by_zip zip_key feat = Raise e →
  e = AttributeError ∨ ∃ k, e = KeyError k.
Proof.
  unfold join_feature, properties_of, geometry_of.
  destruct (f_properties feat) as [| |p]; simpl.
  - intros [= <-]. right. by eexists.
  - intros [= <-]. by left.
  - destruct (by_zip !! _) as [opps|]; [|done].
    destruct (f_geometry feat); simpl; [|intros [= <-]; right; by eexists].
    destruct (map_result summarize opps) eqn:Hs; simpl; [done|].
    intros [= <-]. right. by eapply map_result_summarize_Raise.
Qed.

Lemma join_loop_Raise by_zip zip_key (feats : list (feature G)) acc e :
  join_loop by_zip zip_key feats acc = Raise e →
  e = AttributeError ∨ ∃ k, e = KeyError k.
Proof.
  revert acc. induction feats as [|feat feats IH]; intros acc; simpl; [done|].
  destruct (join_feature by_zip zip_key feat) as [[jf|]|e'] eqn:Hj; simpl.
  - apply IH.
  - apply IH.
  - intros [= <-]. by eapply join_feature_Raise.
Qed.

(** [build_choropleth_geojson] raises its [ValueError] exactly when
    the detection loop over the first five features ends with [None] or
    with the empty string, and the keys of the first feature can be
    listed; the error then carries those keys.  Features after the fifth
    play no part in it. *)
Lemma build_choropleth_geojson_ValueError by_zip (boundaries : list (feature G)) sample :
  build_choropleth_geojson by_zip boundaries = Raise (ValueError sample) ↔
  ∃ zip_key, detect_zip_key (take 5 boundaries) None = Ok zip_key ∧
             truthy (or_empty zip_key) = false ∧
             sample_keys boundaries = Ok sample.
Proof.
  unfold build_choropleth_geojson. split.
  - destruct (detect_zip_key (take 5 boundaries) None) as [k|e] eqn:Hk; simpl.
    + destruct (truthy (or_empty k)) eqn:Ht; simpl.
      * destruct (join_loop _ _ _ _) as [r|e] eqn:Hloop; simpl; [done|].
        intros [= ->]. apply join_loop_Raise in Hloop as [?|[? ?]]; done.
      * destruct (sample_keys boundaries) as [keys|e] eqn:Hs; simpl.
        -- intros [= ->]. by exists k.
        -- intros [= ->]. unfold sample_keys, properties_of in Hs.
           destruct boundaries as [|feat ?]; [done|].
           by destruct (f_properties feat).
    + intros [= ->]. by apply detect_zip_key_Raise in Hk.
  - intros (k & -> & Ht & ->). simpl. by rewrite Ht.
Qed.

End DetectionFacts.

(** ** From the aggregator to the matcher *)

Section Pipeline.
Context `{CharTables}.

(** The buckets [group_by_zip] builds are not empty and hold input rows. *)
Lemma group_by_zip_buckets_nonempty rows :
  map_Forall (λ _ (opps : list row), opps ≠ []) (group_by_zip rows).1.
Proof.
  intros z b. rewrite group_by_zip_bucket.
  destruct (filter _ rows) eqn:Hf; [done|]. by intros [= <-].
Qed.

Lemma group_by_zip_buckets_fields rows :
  Forall has_display_fields rows →
  map_Forall (λ _ opps, Forall has_display_fields opps) (group_by_zip rows).1.
Proof.
  intros Hrows z b Hb. apply Forall_forall. intros r Hr.
  apply (bucket_member _ _ _ _ Hb) in Hr as [Hr _].
  rewrite Forall_forall in Hrows. by apply Hrows.
Qed.

End Pipeline.

Section PipelineScenario.
Local Existing Instance ascii_tables.
Import Scenario.

(** The end-to-end scenario of the specification: one joined feature for
    90065 with count 1, none for 90001, one virtual record. *)
Example scenario_end_to_end :
  (let '(by_zip, virtual) := group_by_zip rows_e2e in
   let* out := build_choropleth_geojson by_zip boundaries_e2e in
   let* html := generate_html (features out) virtual in
   Ok ((λ jf, (j_geometry jf, j_zipcode jf, j_count jf)) <$> features out,
       warning out, v_title <$> virtual_data html,
       (total_mapped html, total_zips html, virtual_count html, max_count html)))
  = Ok ([(2, lit "90065", 1)], None, [Some (lit "Phone bank")], (1, 1, 1, 1)).
Proof. vm_compute. reflexivity. Qed.

(** Zip codes in free text: the first standalone run of five digits. *)
Example scenario_extract_zipcode :
  extract_zipcode (Some (lit "Los Angeles, CA 90065")) = Some (lit "90065") ∧
  extract_zipcode (Some (lit "Suite 123456, CA 90012-1234")) = Some (lit "90012") ∧
  extract_zipcode (Some (lit "Box a12345 or 12345b")) = None ∧
  extract_zipcode (Some (lit "Remote")) = None ∧
  extract_zipcode (Some []) = None ∧
  extract_zipcode None = None.
Proof. vm_compute. done. Qed.

End PipelineScenario.

(** ** Case-insensitive containment on ASCII text *)

Lemma startswith_take (s p : pystr) :
  startswith s p = true ↔ take (length p) s = p.
Proof.
  revert s. induction p as [|a p IH]; intros s; simpl.
  - by destruct s.
  - destruct s as [|b s]; simpl; [done|].
    rewrite andb_true_iff, bool_decide_eq_true, IH. split.
    + by intros [-> ->].
    + by intros [= -> ->].
Qed.

Lemma contains_drop (needle hay : pystr) :
  contains needle hay = true ↔ ∃ i, startswith (drop i hay) needle = true.
Proof.
  induction hay as [|c hay IH].
  - simpl. rewrite orb_false_r. split; [by exists 0|].
    intros [i Hi]. by rewrite drop_nil in Hi.
  - simpl contains. rewrite orb_true_iff, IH. split.
    + intros [Hs|[i Hi]]; [by exists 0 | by exists (S i)].
    + intros [[|i] Hi]; [by left | right; by exists i].
Qed.

Lemma contains_occurrence (needle hay : pystr) :
  contains needle hay = true ↔ ∃ i, take (length needle) (drop i hay) = needle.
Proof. rewrite contains_drop. by setoid_rewrite startswith_take. Qed.

Section AsciiText.
Local Existing Instance ascii_tables.

Lemma lstrip_split (s : pystr) :
  ∃ pre, s = pre ++ lstrip s ∧ Forall (λ c, ascii_space c = true) pre.
Proof.
  induction s as [|c s (pre & Hs & Hpre)]; simpl.
  - by exists [].
  - destruct (ascii_space c) eqn:Hc.
    + exists (c :: pre). simpl. rewrite <- Hs. split; [done | by constructor].
    + by exists [].
Qed.

(** [strip] removes white space at both ends and nothing else. *)
Lemma strip_split (s : pystr) :
  ∃ pre post, s = pre ++ strip s ++ post ∧
              Forall (λ c, ascii_space c = true) pre ∧
              Forall (λ c, ascii_space c = true) post.
Proof.
  destruct (lstrip_split s) as (pre & Hs & Hpre).
  destruct (lstrip_split (reverse (lstrip s))) as (erp & Hr & Herp).
  exists pre, (reverse erp). split; [|split; [done | by apply Forall_reverse]].
  unfold strip. rewrite <- reverse_app, <- Hr, reverse_involutive. done.
Qed.

Lemma tolower_letter_not_space c l :
  ascii_tolower c = l → l ∈ lit "ongoing" → ascii_space c = false.
Proof.
  intros <- Hl. unfold ascii_tolower, ascii_space, ascii_upper in *.
  destruct (65 <=? c)%N eqn:H1, (c <=? 90)%N eqn:H2; simpl in *;
    repeat match goal with
    | H : (_ <=? _)%N = true |- _ => apply N.leb_le in H
    | H : (_ <=? _)%N = false |- _ => apply N.leb_gt in H
    end;
    (apply orb_false_iff; split; apply andb_false_iff;
     [destruct (decide (c < 9)%N); [left; by apply N.leb_gt | right; apply N.leb_gt]
     |destruct (decide (c < 28)%N); [left; by apply N.leb_gt | right; apply N.leb_gt]]);
    vm_compute in Hl; repeat (apply elem_of_cons in Hl as [Hl|Hl]; [lia|]);
    by apply elem_of_nil in Hl.
Qed.

(** A window inside the middle of three lists. *)
Lemma take_drop_inside {A} (pre m post : list A) i n :
  i + n ≤ length m →
  take n (drop (length pre + i) (pre ++ m ++ post)) = take n (drop i m).
Proof.
  intros Hin. rewrite drop_app_add, drop_app_le by lia.
  apply take_app_le. rewrite length_drop. lia.
Qed.

(** On ASCII tables, the test of [_extract_row] holds exactly when the
    raw text has an occurrence of "ongoing" up to letter case. *)
Lemma contains_ongoing_any_case (raw : pystr) :
  contains (lit "ongoing") (lower (strip raw)) = true ↔
  occurs_ignoring_case (lit "ongoing") raw.
Proof.
  change (lower (strip raw)) with (ascii_tolower <$> strip raw).
  rewrite contains_occurrence. unfold occurs_ignoring_case.
  change (length (lit "ongoing")) with 7.
  destruct (strip_split raw) as (pre & post & Hraw & Hpre & Hpost).
  set (m := strip raw) in *.
  split.
  - intros [i Hi]. rewrite <- fmap_drop, <- fmap_take in Hi.
    exists (length pre + i). rewrite Hraw, take_drop_inside; [done|].
    apply (f_equal length) in Hi. rewrite length_fmap, length_take, length_drop in Hi.
    change (length (lit "ongoing")) with 7 in Hi. lia.
  - intros [i Hi].
    assert (length (take 7 (drop i raw)) = 7) as Hlen.
    { apply (f_equal length) in Hi. by rewrite length_fmap in Hi. }
    assert (∀ k c, k < 7 → raw !! (i + k) = Some c → ascii_space c = false) as Hvis.
    { intros k c Hk Hc.
      assert (take 7 (drop i raw) !! k = Some c) as Hw.
      { by rewrite lookup_take_lt, lookup_drop. }
      apply (f_equal (fmap ascii_tolower)) in Hw.
      rewrite <- list_lookup_fmap, Hi in Hw. simpl in Hw.
      eapply tolower_letter_not_space; [done|].
      by eapply list_elem_of_lookup_2. }
    assert (i + 7 ≤ length raw) as Hbound.
    { rewrite length_take, length_drop in Hlen. lia. }
    assert (length pre ≤ i) as Hlo.
    { destruct (decide (length pre ≤ i)) as [|Hlt]; [done|]. exfalso.
      destruct (pre !! i) as [c|] eqn:Hc; [|apply lookup_ge_None in Hc; lia].
      pose proof (Forall_lookup_1 _ _ _ _ Hpre Hc) as Hsp. simpl in Hsp.
      rewrite (Hvis 0 c) in Hsp; [done | lia |].
      rewrite Nat.add_0_r, Hraw. by apply lookup_app_l_Some. }
    assert (i + 7 ≤ length pre + length m) as Hhi.
    { destruct (decide (i + 7 ≤ length pre + length m)) as [|Hgt]; [done|]. exfalso.
      destruct (raw !! (i + 6)) as [c|] eqn:Hc; [|apply lookup_ge_None in Hc; lia].
      pose proof (Hvis 6 c ltac:(lia) Hc) as Hsp.
      rewrite Hraw, app_assoc, lookup_app_r in Hc by (rewrite length_app; lia).
      pose proof (Forall_lookup_1 _ _ _ _ Hpost Hc) as Hsp'. simpl in Hsp'.
      congruence. }
    exists (i - length pre). rewrite <- fmap_drop, <- fmap_take.
    rewrite <- (take_drop_inside pre m post) by lia.
    replace (length pre + (i - length pre)) with i by lia. by rewrite <- Hraw.
Qed.

(** The date of a row without date sub-element, on ASCII tables. *)
Lemma ongoing_or_none_any_case (raw : pystr) :
  (ongoing_or_none raw = Some (lit "Ongoing") ↔
   occurs_ignoring_case (lit "ongoing") raw) ∧
  (ongoing_or_none raw = None ↔
   ¬ occurs_ignoring_case (lit "ongoing") raw).
Proof.
  rewrite <- contains_ongoing_any_case. unfold ongoing_or_none.
  destruct (contains _ _); split; split; done.
Qed.

End AsciiText.

(** The identifier in an href. *)
Example scenario_extract_id :
  _extract_id_from_href (Some (lit "/opportunity/a0CQg00009Z8TdkMAF")) =
    Some (lit "a0CQg00009Z8TdkMAF") ∧
  _extract_id_from_href (Some (lit "/opportunity//opportunity/abc?x=1")) =
    Some (lit "abc") ∧
  _extract_id_from_href (Some (lit "/organization/001")) = None ∧
  _extract_id_from_href (Some []) = None ∧
  _extract_id_from_href None = None.
Proof. vm_compute. done. Qed.

(** * Further properties *)

Local Set Warnings "-clear-no-such-hyp".

(** ** [_extract_id_from_href] *)

Lemma take_while_split {A} (f : A → bool) (l : list A) :
  ∃ rest, l = take_while f l ++ rest ∧
          Forall (λ x, f x = true) (take_while f l) ∧
          match rest with [] => True | x :: _ => f x = false end.
Proof.
  induction l as [|x l (rest & Hl & Hall & Hrest)]; simpl.
  - by exists [].
  - destruct (f x) eqn:Hx.
    + exists rest. simpl. rewrite <- Hl. split; [done|]. split; [by constructor | done].
    + exists (x :: l). by repeat split.
Qed.

Lemma take_while_unique {A} (f : A → bool) (l pre rest : list A) :
  l = pre ++ rest → Forall (λ x, f x = true) pre →
  match rest with [] => True | x :: _ => f x = false end →
  take_while f l = pre.
Proof.
  intros -> Hpre Hrest. induction Hpre as [|x pre Hx _ IH]; simpl.
  - destruct rest as [|x rest]; [done|]. simpl. by rewrite Hrest.
  - by rewrite Hx, IH.
Qed.

Lemma ID_RE_match_at_spec (s : pystr) i id :
  ID_RE_match_at s i = Some id ↔ id_at s i id.
Proof.
  unfold ID_RE_match_at, id_at.
  destruct (startswith (drop i s) (lit "/opportunity/")) eqn:Hs.
  - apply startswith_take in Hs. rewrite drop_drop.
    destruct (take_while_split ascii_alnum (drop (i + length (lit "/opportunity/")) s))
      as (rest & Hsplit & Hall & Hrest).
    split.
    + destruct (take_while _ _) as [|c g] eqn:Hg; [done|]. simpl.
      intros [= <-]. split; [done|]. split; [done|]. split; [done|]. by exists rest.
    + intros (_ & Hne & Hid & rest' & Hdrop & Hrest').
      rewrite (take_while_unique _ _ _ _ Hdrop Hid Hrest'). by destruct id.
  - split; [done|]. intros (Htake & _). apply startswith_take in Htake. congruence.
Qed.

Lemma id_at_bound (s : pystr) i id : id_at s i id → i < length s.
Proof.
  intros (Htake & _). apply (f_equal length) in Htake.
  rewrite length_take, length_drop in Htake.
  change (length (lit "/opportunity/")) with 13 in Htake. lia.
Qed.

(** The match [ID_RE.search] returns is the leftmost one. *)
Lemma ID_RE_search_leftmost (s : pystr) (id : pystr) :
  ID_RE_search s = Some id ↔
  ∃ i, id_at s i id ∧ ∀ j id', j < i → ¬ id_at s j id'.
Proof.
  unfold ID_RE_search. rewrite first_match_seq. split.
  - intros (i & _ & Hi & Hleft). exists i.
    split; [by apply ID_RE_match_at_spec|].
    intros j id' Hj Hat. apply ID_RE_match_at_spec in Hat.
    rewrite Hleft in Hat; [done | lia].
  - intros (i & Hat & Hleft).
    pose proof (id_at_bound _ _ _ Hat) as Hlt. exists i.
    split; [lia|]. split; [by apply ID_RE_match_at_spec|].
    intros j Hj. destruct (ID_RE_match_at s j) as [id'|] eqn:Hm; [|done].
    apply ID_RE_match_at_spec in Hm. exfalso. apply (Hleft j id'); [lia | done].
Qed.

Lemma extract_id_from_href_nonempty (s : pystr) :
  s ≠ [] → _extract_id_from_href (Some s) = ID_RE_search s.
Proof. by destruct s. Qed.

(** X1: [_extract_id_from_href] returns [id] exactly when the href is a
    string in which ["/opportunity/"] is followed by the non-empty, longest
    run [id] of ASCII letters and digits, at the leftmost place where the
    literal is followed by such a character; it returns [None] on [None],
    on the empty string and on every href without such a place. *)
Theorem extract_id_from_href_spec (href : option pystr) (id : pystr) :
  _extract_id_from_href href = Some id ↔
  ∃ s i, href = Some s ∧ id_at s i id ∧ ∀ j id', j < i → ¬ id_at s j id'.
Proof.
  unfold _extract_id_from_href. split.
  - destruct href as [[|c s]|]; simpl; [done| |done].
    intros (i & Hat & Hleft)%ID_RE_search_leftmost. by exists (c :: s), i.
  - intros (s & i & -> & Hat & Hleft).
    pose proof (id_at_bound _ _ _ Hat) as Hlt.
    destruct s as [|c s]; [simpl in Hlt; lia|]. simpl.
    apply ID_RE_search_leftmost. by exists i.
Qed.

(** ** The opportunity type *)

Lemma classify_first (table : list (pystr * pystr)) link_class dflt :
  (∀ pre marker type_name post,
     table = pre ++ (marker, type_name) :: post →
     contains marker link_class = true →
     Forall (λ mt, contains mt.1 link_class = false) pre →
     classify table link_class dflt = type_name) ∧
  (Forall (λ mt, contains mt.1 link_class = false) table →
   classify table link_class dflt = dflt).
Proof.
  induction table as [|[m t] table [IH1 IH2]]; simpl.
  - split; [|done]. intros pre ? ? ? Hp. by destruct pre.
  - split.
    + intros [|[m' t'] pre] marker type_name post Hp Hc Hpre; simplify_eq/=.
      * by rewrite Hc.
      * inversion Hpre as [|? ? Hm' Hpre']; subst. simpl in Hm'. rewrite Hm'.
        by eapply IH1.
    + inversion 1 as [|? ? Hm Htable]; subst. simpl in Hm. rewrite Hm. by apply IH2.
Qed.

Section ExtractorMore.
Context `{CharTables}.

(** X2: the opportunity type of a record returned by [_extract_row] is one
    of the four types of [OPP_TYPE_CLASSES]: that of the first marker, in
    the order of the table, that the class attribute of the anchor
    contains, and ["Volunteer Opportunity"] when the attribute is missing
    or contains no marker. *)
Theorem extract_row_opportunity_type now row r :
  _extract_row now row = Ok r →
  opportunity_type r ∈ OPP_TYPE_CLASSES.*2 ∧
  ∃ cls, opp_link_class row = Ok cls ∧
    (∀ pre marker type_name post,
       OPP_TYPE_CLASSES = pre ++ (marker, type_name) :: post →
       contains marker (or_empty cls) = true →
       Forall (λ mt, contains mt.1 (or_empty cls) = false) pre →
       opportunity_type r = type_name) ∧
    (Forall (λ mt, contains mt.1 (or_empty cls) = false) OPP_TYPE_CLASSES →
     opportunity_type r = lit "Volunteer Opportunity") ∧
    (cls = None → opportunity_type r = lit "Volunteer Opportunity").
Proof.
  intros Hr.
  apply _extract_row_Ok in Hr
    as (t & href & cls & o & org_href & w & iso & ds & ts & dur & d & dist
        & _ & _ & Hcls & _ & _ & _ & _ & _ & _ & _ & _ & _ & ->).
  cbn [opportunity_type].
  destruct (classify_first OPP_TYPE_CLASSES (or_empty cls) (lit "Volunteer Opportunity"))
    as [Hfirst Hnone].
  split.
  - unfold OPP_TYPE_CLASSES, classify.
    repeat (destruct (contains _ (or_empty cls)); [set_solver|]). set_solver.
  - exists cls. split; [done|]. split; [done|]. split; [done|].
    by intros ->.
Qed.

(** X3: when the time cell of a row has a date sub-element, the date of
    the record is the stripped text of that element if it is not empty,
    and then the raw text of the cell is not consulted; if it is empty,
    the date is ["Ongoing"] when the lower-cased raw text contains
    ["ongoing"] and the empty string (not [None]) otherwise.  Time and
    duration are [None] exactly for an absent sub-element and the stripped
    text of the sub-element otherwise. *)
Theorem extract_row_date_element now row r n :
  _extract_row now row = Ok r →
  date_el_count row = Ok (S n) →
  (∃ text, date_el_inner_text row = Ok text ∧
     (strip text ≠ [] →
      date r = Some (strip text) ∧
      ∀ cell, ongoing_fallback (Some (strip text)) cell = Ok (Some (strip text))) ∧
     (strip text = [] →
      ∃ raw, time_cell_inner_text row = Ok raw ∧
             date r = if contains (lit "ongoing") (lower (strip raw))
                      then Some (lit "Ongoing") else Some [])) ∧
  (time r = None ↔ time_el_count row = Ok 0) ∧
  (∀ k, time_el_count row = Ok (S k) →
        ∃ text, time_el_inner_text row = Ok text ∧ time r = Some (strip text)) ∧
  (duration r = None ↔ dur_el_count row = Ok 0) ∧
  (∀ k, dur_el_count row = Ok (S k) →
        ∃ text, dur_el_inner_text row = Ok text ∧ duration r = Some (strip text)).
Proof.
  intros Hr Hcount.
  apply _extract_row_Ok in Hr
    as (t & href & cls & o & org_href & w & iso & ds & ts & dur & d & dist
        & _ & _ & _ & _ & _ & _ & _ & Hds & Hts & Hdur & Hd & _ & ->).
  cbn [date time duration].
  assert (∀ count inner v,
            optional_text count inner = Ok v →
            (v = None ↔ count = Ok 0) ∧
            (∀ k, count = Ok (S k) → ∃ text, inner = Ok text ∧ v = Some (strip text)))
    as Hopt.
  { intros count inner v. unfold optional_text.
    destruct count as [[|k]|e]; simpl; [| |done].
    - intros [= <-]. split; [done|]. by intros k [=].
    - destruct inner as [text|e]; simpl; [|done]. intros [= <-].
      split; [split; [done | by intros [=]]|].
      intros k' _. by exists text. }
  split; [|split; [apply (Hopt _ _ _ Hts)|split; [apply (Hopt _ _ _ Hts)|
            split; [apply (Hopt _ _ _ Hdur) | apply (Hopt _ _ _ Hdur)]]]].
  destruct (proj2 (Hopt _ _ _ Hds) n Hcount) as (text & Htext & ->).
  exists text. split; [done|]. unfold ongoing_fallback in Hd. split.
  - intros Hne. destruct (strip text) as [|c s] eqn:Hs; [done|].
    simpl in Hd. by injection Hd as <-.
  - intros Hnil. rewrite Hnil in Hd. simpl in Hd.
    destruct (time_cell_inner_text row) as [raw|e]; [|done]. simpl in Hd.
    exists raw. split; [done|].
    destruct (contains _ _); by injection Hd as <-.
Qed.

End ExtractorMore.

(** ** [_extract_all_rows] *)

Section HarvesterFacts.
Context `{CharTables}.

Lemma foldl_extract_step clock (l : list (nat * row_dom)) acc :
  foldl (extract_step clock) acc l =
  (acc.1 ++ omap (extracted clock) l, acc.2 ++ omap (skipped clock) l).
Proof.
  revert acc. induction l as [|ir l IH]; intros [opps warns]; csimpl.
  - by rewrite !app_nil_r.
  - rewrite IH. unfold extract_step, extracted, skipped.
    destruct (_extract_row (clock ir.1) ir.2); csimpl; by rewrite <- !app_assoc.
Qed.

Lemma omap_extracted_skipped_length clock (l : list (nat * row_dom)) :
  length (omap (extracted clock) l) + length (omap (skipped clock) l) = length l.
Proof.
  induction l as [|ir l IH]; csimpl; [done|].
  unfold extracted at 1, skipped at 1.
  destruct (_extract_row (clock ir.1) ir.2); csimpl; lia.
Qed.

Lemma lookup_zip_seq {A} (l : list A) i x :
  zip (seq 0 (length l)) l !! i = Some (i, x) ↔ l !! i = Some x.
Proof.
  rewrite lookup_zip_with_Some. split.
  - intros (j & y & Heq & _ & Hy). by simplify_eq.
  - intros Hx. exists i, x. split; [done|]. split; [|done].
    apply lookup_seq. split; [done|]. by eapply lookup_lt_Some.
Qed.

Lemma elem_of_zip_seq {A} (l : list A) i x :
  (i, x) ∈ zip (seq 0 (length l)) l ↔ l !! i = Some x.
Proof.
  rewrite list_elem_of_lookup. split.
  - intros [j Hj]. pose proof Hj as Hj'.
    apply lookup_zip_with_Some in Hj' as (a & y & Heq & Ha & _).
    apply lookup_seq in Ha as [Ha _]. simplify_eq/=.
    exact (proj1 (lookup_zip_seq l j y) Hj).
  - intros Hx. exists i. exact (proj2 (lookup_zip_seq l i x) Hx).
Qed.

(** X4: [_extract_all_rows] never raises on a row: it returns, in
    document order, the records of the rows whose extraction returns, and
    warns, in order, of each row whose extraction raises, with its index
    and exception; records and warnings together are as many as the rows,
    a record is returned for row [i] exactly when [_extract_row] returns it
    there, and a row that fails does not change the records of the others. *)
Theorem extract_all_rows_spec clock (rows : list row_dom) :
  (_extract_all_rows clock rows).1 =
    omap (extracted clock) (zip (seq 0 (length rows)) rows) ∧
  (_extract_all_rows clock rows).2 =
    omap (skipped clock) (zip (seq 0 (length rows)) rows) ∧
  length (_extract_all_rows clock rows).1 + length (_extract_all_rows clock rows).2
    = length rows ∧
  (∀ opp, opp ∈ (_extract_all_rows clock rows).1 ↔
          ∃ i row, rows !! i = Some row ∧ _extract_row (clock i) row = Ok opp) ∧
  (∀ i e, (i, e) ∈ (_extract_all_rows clock rows).2 ↔
          ∃ row, rows !! i = Some row ∧ _extract_row (clock i) row = Raise e).
Proof.
  unfold _extract_all_rows. rewrite foldl_extract_step. simpl.
  split; [done|]. split; [done|]. split.
  { rewrite omap_extracted_skipped_length, length_zip_with, length_seq. lia. }
  split.
  - intros opp. rewrite list_elem_of_omap. split.
    + intros ([i row] & Hin & Hopp). apply elem_of_zip_seq in Hin.
      exists i, row. split; [done|]. unfold extracted in Hopp. simpl in Hopp.
      by destruct (_extract_row (clock i) row) as [o|]; simplify_eq.
    + intros (i & row & Hrow & Hopp). exists (i, row).
      split; [by apply elem_of_zip_seq|]. unfold extracted. simpl. by rewrite Hopp.
  - intros i e. rewrite list_elem_of_omap. split.
    + intros ([j row] & Hin & Hskip). apply elem_of_zip_seq in Hin.
      unfold skipped in Hskip. simpl in Hskip.
      destruct (_extract_row (clock j) row) as [o|e'] eqn:He; simplify_eq.
      by exists row.
    + intros (row & Hrow & He). exists (i, row).
      split; [by apply elem_of_zip_seq|]. unfold skipped. simpl. by rewrite He.
Qed.

End HarvesterFacts.

(** ** The statistics of [run] *)

Lemma count_types_snoc opps opp :
  count_types (opps ++ [opp]) = count_type (count_types opps) opp.
Proof. unfold count_types. apply foldl_snoc. Qed.

Lemma count_type_sum (types : gmap pystr nat) opp :
  sum_list (snd <$> map_to_list (count_type types opp)) =
  S (sum_list (snd <$> map_to_list types)).
Proof.
  unfold count_type. destruct (types !! opportunity_type opp) as [n|] eqn:Ht; simpl.
  - rewrite <- (insert_delete_eq types).
    rewrite map_to_list_insert by apply lookup_delete_eq.
    rewrite <- (map_to_list_delete types _ _ Ht). csimpl. unfold id. lia.
  - rewrite map_to_list_insert by done. csimpl. by unfold id.
Qed.

Lemma size_list_to_set_le (l : list pystr) :
  size (list_to_set l : gset pystr) ≤ length l.
Proof.
  induction l as [|x l IH].
  - done.
  - rewrite list_to_set_cons, size_union_alt, size_singleton. simpl.
    pose proof (subseteq_size (list_to_set l ∖ {[x]}) (list_to_set l : gset pystr)) as Hle.
    assert (list_to_set l ∖ {[x]} ⊆ (list_to_set l : gset pystr)) as Hsub.
    { intros y Hy. by apply elem_of_difference in Hy as [? _]. }
    specialize (Hle Hsub). lia.
Qed.

(** X5: the statistics [run] prints: the count of a type is the number of
    opportunities of that type, and a type is listed only if there is one;
    the counts add up to the number of opportunities; the number of unique
    organizations is at most the number of opportunities, and is that
    number when no organization occurs twice. *)
Theorem count_types_spec (opportunities : list Opportunity) :
  (∀ t, count_types opportunities !! t =
        match length (filter (λ opp, opportunity_type opp = t) opportunities) with
        | 0 => None
        | S n => Some (S n)
        end) ∧
  sum_list (snd <$> map_to_list (count_types opportunities)) = length opportunities ∧
  unique_organizations opportunities ≤ length opportunities ∧
  (NoDup (organization <$> opportunities) →
   unique_organizations opportunities = length opportunities).
Proof.
  split; [|split; [|split]].
  - intros t. induction opportunities as [|opp opps IH] using rev_ind;
      [apply lookup_empty|].
    rewrite count_types_snoc, filter_app, length_app. unfold count_type.
    destruct (decide (opportunity_type opp = t)) as [Heq|Hne].
    + rewrite Heq at 1 2. rewrite lookup_insert_eq, IH.
      rewrite filter_cons_True by done. simpl.
      destruct (length (filter _ opps)); simpl; f_equal; lia.
    + rewrite lookup_insert_ne by done. rewrite IH.
      rewrite filter_cons_False by done. simpl.
      by rewrite Nat.add_0_r.
  - induction opportunities as [|opp opps IH] using rev_ind; [done|].
    rewrite count_types_snoc, count_type_sum, IH, length_app. simpl. lia.
  - unfold unique_organizations.
    rewrite <- (length_fmap organization opportunities). apply size_list_to_set_le.
  - intros Hnd. unfold unique_organizations.
    rewrite size_list_to_set by done. apply length_fmap.
Qed.

(** ** The life cycle of the scraper *)

Ltac case_outcome :=
  match goal with
  | |- context [match ?o with Returns _ => _ | Raises _ => _ end] =>
      destruct o as [?|?] eqn:?
  | |- context [match ?l with [] => _ | _ :: _ => _ end] =>
      destruct l as [|? ?] eqn:?
  | |- context [match ?r with KeyboardInterrupt => _ | Failure _ => _ end] =>
      destruct r
  end.

Ltac solve_calls :=
  unfold returned; cbn;
  rewrite ?elem_of_cons, ?elem_of_nil;
  naive_solver.

(** X6: [run] releases what [start] acquired and saves only results: the
    browser is closed exactly when it was launched; the browser library is
    stopped exactly when it was started and closing the browser, if there
    was one, returned; these calls of [stop] come after all others,
    whatever was raised before; [save_results] is called exactly when the
    scraper started and the scrape returned at least one opportunity, with
    all of them; and when [stop] returns, a [KeyboardInterrupt] raised
    before it does not leave [run]. *)
Theorem run_releases_resources (w : outside) :
  (BrowserClose ∈ (run w).1 ↔
   returned (playwright_start w) ∧ returned (chromium_launch w)) ∧
  (PlaywrightStop ∈ (run w).1 ↔
   returned (playwright_start w) ∧
   (returned (chromium_launch w) → returned (browser_close w))) ∧
  (run w).1 = filter (λ c, is_cleanup c = false) (run w).1
              ++ filter (λ c, is_cleanup c = true) (run w).1 ∧
  (∀ n, SaveResults n ∈ (run w).1 ↔
        returned (playwright_start w) ∧ returned (chromium_launch w) ∧
        returned (new_context w) ∧ returned (new_page w) ∧
        ∃ opportunities, scrape_search_results w = Returns opportunities ∧
                         opportunities ≠ [] ∧ n = length opportunities) ∧
  (returned (browser_close w) → returned (playwright_stop w) →
   (run w).2 ≠ Raises KeyboardInterrupt).
Proof.
  unfold run, run_body, start, stop, new_scraper.
  repeat (case_outcome; cbn [_browser _playwright]);
    (split; [solve_calls|]); (split; [solve_calls|]); (split; [reflexivity|]);
    (split; [intros n; solve_calls|]); solve_calls.
Qed.

(** ** The statistics of [generate_html] *)

(** X7: the figures of [generate_html]: the max-count is at least the
    count of every feature and, when there is a feature, is the count of
    one of them and at most the total-mapped figure, which is the sum of
    the counts; it is at least 1 when every count is (as for the features
    joined from the buckets of [group_by_zip]), so that the colour scale
    never divides by zero. *)
Theorem generate_html_figures {G : Type} (geojson : list (joined_feature G))
    (virtual_opps : list row) html :
  generate_html geojson virtual_opps = Ok html →
  total_mapped html = sum_list (j_count <$> geojson) ∧
  total_zips html = length geojson ∧
  virtual_count html = length virtual_opps ∧
  Forall (λ jf, j_count jf ≤ max_count html) geojson ∧
  (geojson ≠ [] →
   (∃ jf, jf ∈ geojson ∧ j_count jf = max_count html) ∧
   max_count html ≤ total_mapped html) ∧
  (Forall (λ jf, 1 ≤ j_count jf) geojson → 1 ≤ max_count html).
Proof.
  intros Hhtml.
  apply generate_html_Ok in Hhtml as (_ & Htotal & Hzips & Hvirt & Hmax).
  split; [done|]. split; [done|]. split; [done|].
  rewrite Hmax, Htotal. destruct geojson as [|jf0 geojson]; csimpl.
  { split; [constructor|]. split; [done | lia]. }
  destruct (foldl_max_spec (j_count <$> geojson) (j_count jf0)) as (Hle & Hall & Hin).
  assert (∃ jf, jf ∈ jf0 :: geojson ∧
                j_count jf = foldl Nat.max (j_count jf0) (j_count <$> geojson)) as Hatt.
  { destruct Hin as [Heq|Hin].
    - exists jf0. split; [by left | done].
    - apply list_elem_of_fmap in Hin as (jf & Heq & Hin). exists jf.
      split; [by right | done]. }
  split; [|split].
  - constructor; [done|]. by apply Forall_fmap in Hall.
  - intros _. split; [done|].
    destruct Hatt as (jf & Hjf & <-).
    pose proof (sum_list_with_in (j_count jf) id (j_count <$> jf0 :: geojson)) as Hsum.
    csimpl in Hsum. unfold id in Hsum. apply Hsum.
    by apply (list_elem_of_fmap_2 j_count (jf0 :: geojson)).
  - intros Hpos. destruct Hatt as (jf & Hjf & <-).
    rewrite Forall_forall in Hpos. by apply Hpos.
Qed.

Lemma map_result_virtual_entry_spec (opps : list row) :
  match map_result virtual_entry opps with
  | Ok vs => Forall2 projects opps vs
  | Raise e =>
      ∃ pre o post, opps = pre ++ o :: post ∧ Forall has_display_fields pre ∧
        ((o !! lit "title" = None ∧ e = KeyError (lit "title")) ∨
         (is_Some (o !! lit "title") ∧ o !! lit "organization" = None ∧
          e = KeyError (lit "organization")))
  end.
Proof.
  induction opps as [|o opps IH]; simpl; [constructor|].
  unfold virtual_entry at 1, subscript.
  destruct (o !! lit "title") as [t|] eqn:Ht; simpl.
  - destruct (o !! lit "organization") as [g|] eqn:Hg; simpl.
    + destruct (map_result virtual_entry opps) as [vs|e]; simpl.
      * constructor; [|done]. by repeat split.
      * destruct IH as (pre & o' & post & -> & Hpre & He).
        exists (o :: pre), o', post. split; [done|]. split; [|done].
        constructor; [|done]. split; by eexists.
    + exists [], o, opps. split; [done|]. split; [constructor|].
      right. split; [by eexists | done].
  - exists [], o, opps. split; [done|]. split; [constructor|]. by left.
Qed.

(** X8: [generate_html] returns exactly when every virtual record has the
    keys [title] and [organization]; its virtual list then has, in order,
    the display entry of each virtual record.  Otherwise it raises the
    [KeyError] of the first key that the first such record lacks,
    whatever the features are. *)
Theorem generate_html_virtual_records {G : Type} (geojson : list (joined_feature G))
    (virtual_opps : list row) :
  (is_Ok (generate_html geojson virtual_opps) ↔
   Forall has_display_fields virtual_opps) ∧
  (∀ html, generate_html geojson virtual_opps = Ok html →
           Forall2 projects virtual_opps (virtual_data html) ∧
           geojson_data html = geojson) ∧
  (∀ e, generate_html geojson virtual_opps = Raise e →
        ∃ pre o post,
          virtual_opps = pre ++ o :: post ∧ Forall has_display_fields pre ∧
          ((o !! lit "title" = None ∧ e = KeyError (lit "title")) ∨
           (is_Some (o !! lit "title") ∧ o !! lit "organization" = None ∧
            e = KeyError (lit "organization")))).
Proof.
  pose proof (map_result_virtual_entry_spec virtual_opps) as Hspec.
  unfold generate_html.
  destruct (map_result virtual_entry virtual_opps) as [vs|e]; simpl.
  - split; [|split].
    + split; [intros _ | by eexists].
      apply Forall_forall. intros o Ho.
      apply list_elem_of_lookup in Ho as [i Ho].
      destruct (Forall2_lookup_l _ _ _ _ _ Hspec Ho) as (v & _ & Ht & Hg & _).
      split; by eexists.
    + by intros html [= <-].
    + by intros e.
  - destruct Hspec as (pre & o & post & -> & Hpre & He). split; [|split].
    + split; [by intros [html ?]|]. intros Hall.
      apply Forall_app in Hall as [_ Hall]. apply Forall_cons in Hall as [[Ht Hg] _].
      destruct He as [[Hnone _]|(_ & Hnone & _)].
      * rewrite Hnone in Ht. by destruct Ht.
      * rewrite Hnone in Hg. by destruct Hg.
    + by intros html.
    + intros e' [= <-]. by exists pre, o, post.
Qed.

(** ** Invariants of the aggregation *)

Lemma py_sum_lengths {A} (ls : list (list A)) :
  py_sum (length <$> ls) = length (concat ls).
Proof.
  rewrite py_sum_sum_list. induction ls as [|l ls IH]; csimpl; [done|].
  rewrite length_app, <- IH. done.
Qed.

Lemma nonempty_lists_length {A} (ls : list (list A)) :
  Forall (λ l, l ≠ []) ls → length ls ≤ length (concat ls).
Proof.
  induction 1 as [|l ls Hl _ IH]; simpl; [done|].
  rewrite length_app. destruct l; [done | simpl; lia].
Qed.

Section AggregatorMore.
Context `{CharTables}.

Lemma extract_zipcode_digits loc z :
  extract_zipcode loc = Some z → Forall (λ c, is_digit c = true) z.
Proof.
  rewrite extract_zipcode_search. unfold ZIP_RE_search.
  rewrite first_match_seq. intros (i & _ & Hm & _). unfold ZIP_RE_match_at in Hm.
  destruct (at_boundary _ i); [|done]. case_bool_decide; [|done]. simpl in Hm.
  destruct (forallb is_digit _) eqn:Hd; [|done]. destruct (at_boundary _ _); [|done].
  simpl in Hm. injection Hm as <-. apply Forall_forall. intros c Hc.
  rewrite forallb_forall in Hd. by apply Hd, list_elem_of_In.
Qed.

(** X9: the aggregation [group_by_zip] returns: every key is a string of
    five digits, the zip code of every row of its bucket, and no bucket is
    empty; the keys are the zip codes found in the rows; there are at most
    as many buckets as rows; and the total that [main] prints, the sizes of
    the buckets plus the size of the virtual list, is the number of rows. *)
Theorem group_by_zip_keys (rows : list row) :
  (∀ z b, (group_by_zip rows).1 !! z = Some b →
     length z = 5 ∧ Forall (λ c, is_digit c = true) z ∧ b ≠ [] ∧
     Forall (λ r, r ∈ rows ∧ zip_of r = Some z) b) ∧
  (∀ z, z ∈ dom (group_by_zip rows).1 ↔ ∃ r, r ∈ rows ∧ zip_of r = Some z) ∧
  size (group_by_zip rows).1 ≤ length rows ∧
  total_opportunities (group_by_zip rows).1 (group_by_zip rows).2 = length rows.
Proof.
  pose proof (group_by_zip_permutation rows) as Hperm.
  apply Permutation_length in Hperm. rewrite length_app in Hperm.
  split; [|split; [|split]].
  - intros z b Hb.
    assert (Forall (λ r, r ∈ rows ∧ zip_of r = Some z) b) as Hall.
    { apply Forall_forall. intros r Hr. by eapply bucket_member. }
    pose proof (group_by_zip_buckets_nonempty rows z b Hb) as Hne. simpl in Hne.
    destruct b as [|r b]; [done|]. apply Forall_cons in Hall as [[_ Hz] Hall'].
    split; [by eapply extract_zipcode_length|].
    split; [by eapply extract_zipcode_digits|]. split; [done|].
    constructor; [|done]. split; [|done].
    eapply (proj1 (bucket_member rows z (r :: b) r Hb ltac:(by left))).
  - intros z. rewrite elem_of_dom, group_by_zip_bucket. split.
    + intros [b Hb]. destruct (filter _ rows) as [|r l] eqn:Hf; [done|].
      assert (r ∈ filter (λ r, zip_of r = Some z) rows) as Hr by (rewrite Hf; by left).
      apply list_elem_of_filter in Hr as [Hz Hr]. by exists r.
    + intros (r & Hr & Hz).
      assert (r ∈ filter (λ r, zip_of r = Some z) rows) as Hin.
      { by apply list_elem_of_filter. }
      destruct (filter _ rows); [by apply elem_of_nil in Hin | by eexists].
  - rewrite <- length_map_to_list.
    rewrite <- (length_fmap snd (map_to_list (group_by_zip rows).1)).
    etrans; [apply nonempty_lists_length|unfold bucket_rows in Hperm; lia].
    apply Forall_fmap, Forall_forall. intros [z b] Hzb. simpl.
    apply elem_of_map_to_list in Hzb. by eapply group_by_zip_buckets_nonempty.
  - unfold total_opportunities. rewrite py_sum_lengths.
    unfold bucket_rows in Hperm. lia.
Qed.

End AggregatorMore.

(** ** When the join returns *)

Section JoinMore.
Context `{CharTables} {G : Type}.
Implicit Types (by_zip : gmap pystr (list row)) (feat : feature G).

Lemma map_result_summarize_cases (opps : list row) :
  match map_result summarize opps with
  | Ok ss => Forall2 summarizes opps ss ∧ Forall has_display_fields opps
  | Raise _ => ¬ Forall has_display_fields opps
  end.
Proof.
  induction opps as [|o opps IH]; simpl; [by split; constructor|].
  unfold summarize at 1, subscript.
  destruct (o !! lit "title") as [t|] eqn:Ht; simpl.
  - destruct (o !! lit "organization") as [g|] eqn:Hg; simpl.
    + destruct (map_result summarize opps) as [ss|e]; simpl.
      * destruct IH as [Hall Hfields]. split.
        -- constructor; [|done]. by repeat split.
        -- constructor; [|done]. split; by eexists.
      * intros Hall. apply IH. by apply Forall_cons in Hall as [_ ?].
    + intros Hall. apply Forall_cons in Hall as [[_ [? Hsome]] _]. congruence.
  - intros Hall. apply Forall_cons in Hall as [[[? Hsome] _] _]. congruence.
Qed.

Lemma join_feature_cases by_zip zip_key feat :
  match join_feature by_zip zip_key feat with
  | Ok (Some jf) =>
      joinable by_zip zip_key feat ∧ joins by_zip zip_key feat jf ∧
      matches by_zip zip_key feat
  | Ok None =>
      joinable by_zip zip_key feat ∧ ¬ matches by_zip zip_key feat
  | Raise _ => ¬ joinable by_zip zip_key feat
  end.
Proof.
  unfold join_feature, properties_of, geometry_of, joinable, matches, joins, resolved_zip.
  destruct (f_properties feat) as [| |p] eqn:Hp; simpl.
  - by intros [[p ?] _].
  - by intros [[p ?] _].
  - destruct (by_zip !! py_str (props_get p zip_key (JStr []))) as [opps|] eqn:Hz.
    + destruct (f_geometry feat) as [g|] eqn:Hg; simpl.
      * pose proof (map_result_summarize_cases opps) as Hsum.
        destruct (map_result summarize opps) as [ss|e]; simpl.
        -- destruct Hsum as [Hall Hfields].
           split; [|split; [|by eexists]].
           ++ split; [by eexists|]. intros opps' [= <-]. split; [by eexists | done].
           ++ split; [done|]. split; [done|]. by exists opps.
        -- intros [_ Hj]. destruct (Hj opps eq_refl) as [_ Hfields]. by apply Hsum.
      * intros [_ Hj]. destruct (Hj opps eq_refl) as [[g Hg'] _]. done.
    + split; [|by intros [? ?]]. split; [by eexists|]. by intros opps.
Qed.

Lemma join_loop_cases by_zip zip_key (feats : list (feature G)) acc :
  match join_loop by_zip zip_key feats acc with
  | Ok r =>
      Forall (joinable by_zip zip_key) feats ∧
      ∃ jfs, r.1 = acc.1 ++ jfs ∧
             Forall2 (joins by_zip zip_key) (filter (matches by_zip zip_key) feats) jfs ∧
             ∀ z, z ∈ r.2 ↔ z ∈ acc.2 ∨ z ∈ j_zipcode <$> jfs
  | Raise _ => ¬ Forall (joinable by_zip zip_key) feats
  end.
Proof.
  revert acc. induction feats as [|feat feats IH]; intros acc; simpl.
  - split; [constructor|]. exists []. rewrite app_nil_r.
    split; [done|]. split; [constructor|]. intros z. rewrite elem_of_nil. tauto.
  - pose proof (join_feature_cases by_zip zip_key feat) as Hfeat.
    destruct (join_feature by_zip zip_key feat) as [[jf|]|e]; simpl.
    + destruct Hfeat as (Hj & Hjoins & Hm).
      specialize (IH (acc.1 ++ [jf], {[j_zipcode jf]} ∪ acc.2)).
      destruct (join_loop _ _ feats _) as [r|e].
      * destruct IH as (Hall & jfs & Hr & HF & Hmatched). split; [by constructor|].
        exists (jf :: jfs). simpl in Hr. rewrite <- app_assoc in Hr.
        split; [done|]. split.
        -- rewrite filter_cons_True by done. by constructor.
        -- intros z. rewrite Hmatched. cbn [fst snd].
           rewrite elem_of_union, elem_of_singleton, fmap_cons, elem_of_cons. tauto.
      * intros Hall. apply IH. by apply Forall_cons in Hall as [_ ?].
    + destruct Hfeat as (Hj & Hm). specialize (IH acc).
      destruct (join_loop _ _ feats _) as [r|e].
      * destruct IH as (Hall & jfs & Hr & HF & Hmatched). split; [by constructor|].
        exists jfs. split; [done|]. split; [|done].
        by rewrite filter_cons_False.
      * intros Hall. apply IH. by apply Forall_cons in Hall as [_ ?].
    + intros Hall. by apply Forall_cons in Hall as [? _].
Qed.

Lemma detected_unique (boundaries : list (feature G)) k1 k2 :
  detected boundaries k1 → detected boundaries k2 → k1 = k2.
Proof. intros [H1 _] [H2 _]. congruence. Qed.

(** What [build_choropleth_geojson] returns, whenever it returns. *)
Lemma build_choropleth_geojson_out by_zip (boundaries : list (feature G)) out :
  build_choropleth_geojson by_zip boundaries = Ok out →
  ∃ zip_key,
    detected boundaries zip_key ∧
    Forall (joinable by_zip zip_key) boundaries ∧
    Forall2 (joins by_zip zip_key)
      (filter (matches by_zip zip_key) boundaries) (features out) ∧
    ∃ unmatched,
      (∀ z, z ∈ unmatched ↔ z ∈ dom by_zip ∧ z ∉ j_zipcode <$> features out) ∧
      reports unmatched (warning out).
Proof.
  unfold build_choropleth_geojson, detected.
  destruct (detect_zip_key (take 5 boundaries) None) as [[[|c key]|]|e] eqn:Hdet; simpl;
    try by destruct (sample_keys boundaries).
  pose proof (join_loop_cases by_zip (c :: key) boundaries ([], ∅)) as Hloop.
  destruct (join_loop by_zip (c :: key) boundaries ([], ∅)) as [r|e]; simpl; [|done].
  destruct Hloop as (Hall & jfs & Hr & HF & Hmatched). simpl in Hr.
  intros [= <-]. exists (c :: key). cbn [features warning]. rewrite Hr.
  split; [done|]. split; [done|]. split; [done|].
  exists (dom by_zip ∖ r.2). split; [|apply warning_reports].
  intros z. pose proof (Hmatched z) as Hm. cbn [fst snd] in Hm.
  rewrite elem_of_empty in Hm. rewrite elem_of_difference, Hm. tauto.
Qed.

(** [build_choropleth_geojson] returns when a key is detected and every
    boundary feature can be joined. *)
Lemma build_choropleth_geojson_is_Ok by_zip (boundaries : list (feature G)) zip_key :
  detected boundaries zip_key →
  Forall (joinable by_zip zip_key) boundaries →
  is_Ok (build_choropleth_geojson by_zip boundaries).
Proof.
  intros [Hdet Htruthy] Hall. unfold build_choropleth_geojson. rewrite Hdet.
  destruct zip_key as [|c key]; [done|]. simpl.
  pose proof (join_loop_cases by_zip (c :: key) boundaries ([], ∅)) as Hloop.
  destruct (join_loop by_zip (c :: key) boundaries ([], ∅)) as [r|e]; simpl.
  - by eexists.
  - by destruct Hloop.
Qed.

(** X10: [build_choropleth_geojson] returns exactly when a key is detected
    and every boundary feature has an object as [properties] and, if its
    zip value is a key of the aggregation, a [geometry] and a bucket whose
    records have [title] and [organization]; a boundary feature without
    [geometry] is accepted as long as it matches no bucket.  What it
    returns is then one joined feature for each matching boundary feature,
    in order; and the warning is about the keys of the aggregation that no
    joined feature carries: it is printed exactly when there is one, with
    their number and the ten smallest of them in ascending order (all of
    them when they are fewer). *)
Theorem build_choropleth_geojson_returns by_zip (boundaries : list (feature G)) :
  (is_Ok (build_choropleth_geojson by_zip boundaries) ↔
   ∃ zip_key, detected boundaries zip_key ∧
              Forall (joinable by_zip zip_key) boundaries) ∧
  (∀ out, build_choropleth_geojson by_zip boundaries = Ok out →
     ∃ zip_key,
       detected boundaries zip_key ∧
       Forall2 (joins by_zip zip_key)
         (filter (matches by_zip zip_key) boundaries) (features out) ∧
       ∃ unmatched,
         (∀ z, z ∈ unmatched ↔ z ∈ dom by_zip ∧ z ∉ j_zipcode <$> features out) ∧
         reports unmatched (warning out)).
Proof.
  split.
  - split.
    + intros [out Hout].
      apply build_choropleth_geojson_out in Hout as (zip_key & ? & ? & _).
      by exists zip_key.
    + intros (zip_key & Hdet & Hall). by eapply build_choropleth_geojson_is_Ok.
  - intros out Hout.
    apply build_choropleth_geojson_out in Hout as (zip_key & ? & _ & ? & ?).
    by exists zip_key.
Qed.

End JoinMore.

(** ** What becomes of the rows *)

Lemma filter_not_in_nil (m : gmap pystr (list row)) :
  filter (λ kv : pystr * list row, kv.1 ∉ []) m = m.
Proof. apply map_filter_id. intros z b _. apply not_elem_of_nil. Qed.

Lemma filter_not_in_cons (m : gmap pystr (list row)) z (zl : list pystr) :
  filter (λ kv : pystr * list row, kv.1 ∉ z :: zl) m =
  delete z (filter (λ kv : pystr * list row, kv.1 ∉ zl) m).
Proof.
  apply map_eq. intros k. apply option_eq. intros b.
  rewrite map_lookup_filter_Some, lookup_delete_Some, map_lookup_filter_Some.
  simpl. rewrite not_elem_of_cons. naive_solver.
Qed.

(** The records of the buckets of [zl], and the others. *)
Lemma bucket_rows_split (m : gmap pystr (list row)) (zl : list pystr) :
  NoDup zl → Forall (λ z, is_Some (m !! z)) zl →
  length (bucket_rows m) =
  sum_list ((λ z, length (default [] (m !! z))) <$> zl)
  + length (records_outside zl m).
Proof.
  unfold records_outside.
  induction zl as [|z zl IH]; intros Hnd Hall.
  - by rewrite filter_not_in_nil.
  - apply NoDup_cons in Hnd as [Hz Hnd]. apply Forall_cons in Hall as [[b Hb] Hall].
    rewrite (IH Hnd Hall), filter_not_in_cons. csimpl. rewrite Hb. simpl.
    assert (filter (λ kv : pystr * list row, kv.1 ∉ zl) m !! z = Some b) as Hf.
    { by apply map_lookup_filter_Some. }
    assert (length (bucket_rows (filter (λ kv : pystr * list row, kv.1 ∉ zl) m)) =
            length b + length (bucket_rows
              (delete z (filter (λ kv : pystr * list row, kv.1 ∉ zl) m)))) as Hlen.
    { unfold bucket_rows. rewrite <- (map_to_list_delete _ _ _ Hf). csimpl.
      by rewrite length_app. }
    rewrite Hlen. lia.
Qed.

Section PipelineMore.
Context `{CharTables} {G : Type}.

Lemma joins_counts (by_zip : gmap pystr (list row)) zip_key
    (feats : list (feature G)) jfs :
  Forall2 (joins by_zip zip_key) feats jfs →
  sum_list (j_count <$> jfs) =
    sum_list ((λ z, length (default [] (by_zip !! z))) <$> (j_zipcode <$> jfs)) ∧
  Forall (λ z, is_Some (by_zip !! z)) (j_zipcode <$> jfs).
Proof.
  induction 1 as [|feat jf feats jfs (_ & _ & opps & Hopps & Hcount & _) _ [IHs IHa]];
    csimpl; [by split|].
  rewrite Hopps, IHs. simpl. unfold id. split; [lia|]. constructor; [by eexists | done].
Qed.

(** X11: what becomes of the rows between [group_by_zip],
    [build_choropleth_geojson] and [generate_html], when no two joined
    features have the same zip code: every row is counted once, in the
    total-mapped figure, among the records of the buckets without joined
    feature (which are on no map and in no list), or in the virtual count;
    and the joined features and the zip codes the warning counts (none
    when it is not printed) are together as many as the buckets. *)
Theorem pipeline_conservation (rows : list row) (boundaries : list (feature G))
    out html :
  build_choropleth_geojson (group_by_zip rows).1 boundaries = Ok out →
  generate_html (features out) (group_by_zip rows).2 = Ok html →
  NoDup (j_zipcode <$> features out) →
  total_mapped html
  + length (records_outside (j_zipcode <$> features out) (group_by_zip rows).1)
  + virtual_count html = length rows ∧
  total_zips html + default 0 (fst <$> warning out) = size (group_by_zip rows).1.
Proof.
  intros Hout Hhtml Hnd.
  apply build_choropleth_geojson_out
    in Hout as (zip_key & _ & _ & Hjoins & unmatched & Hmem & Hwarn).
  apply generate_html_Ok in Hhtml as (_ & -> & -> & -> & _).
  destruct (joins_counts _ _ _ _ Hjoins) as [Hsum Hkeys].
  pose proof (bucket_rows_split _ _ Hnd Hkeys) as Hsplit.
  pose proof (group_by_zip_permutation rows) as Hperm.
  apply Permutation_length in Hperm. rewrite length_app in Hperm.
  split; [lia|].
  set (zl := j_zipcode <$> features out) in *.
  assert (default 0 (fst <$> warning out) = size unmatched) as ->.
  { destruct (warning out) as [[n shown]|]; simpl in *.
    - by destruct Hwarn as [-> _].
    - by rewrite Hwarn, size_empty. }
  assert (unmatched = dom (group_by_zip rows).1 ∖ list_to_set zl) as ->.
  { apply set_eq. intros z.
    by rewrite elem_of_difference, elem_of_list_to_set, Hmem. }
  assert (list_to_set zl ⊆ dom (group_by_zip rows).1) as Hsub.
  { intros z Hz. apply elem_of_list_to_set in Hz. apply elem_of_dom.
    rewrite Forall_forall in Hkeys. by apply Hkeys. }
  rewrite size_difference by done. pose proof (subseteq_size _ _ Hsub) as Hle.
  rewrite size_list_to_set in * by done. rewrite size_dom in *.
  unfold zl in *. rewrite length_fmap in *. lia.
Qed.

End PipelineMore.

(** ** [_find_zip_property] *)

Section DetectionMore.
Context `{CharTables} {G : Type}.
Implicit Types (feat : feature G) (p : props).

Lemma find_candidate_first p (keys : list pystr) :
  (∀ pre c post,
     keys = pre ++ c :: post →
     is_zip_value (props_get p c (JStr [])) = true →
     Forall (λ c', is_zip_value (props_get p c' (JStr [])) = false) pre →
     find_candidate p keys = Some c) ∧
  (find_candidate p keys = None ↔
   Forall (λ c, is_zip_value (props_get p c (JStr [])) = false) keys).
Proof.
  induction keys as [|k keys [IH1 IH2]]; simpl.
  - split; [intros pre ? ? Hk; by destruct pre | by split; [constructor|]].
  - split.
    + intros [|c' pre] c post Hk Hc Hpre; simplify_eq/=.
      * by rewrite Hc.
      * apply Forall_cons in Hpre as [Hc' Hpre]. rewrite Hc'. by eapply IH1.
    + destruct (is_zip_value (props_get p k (JStr []))) eqn:Hk.
      * split; [done|]. intros Hall. apply Forall_cons in Hall as [? _]. congruence.
      * rewrite IH2. split; [by constructor | by intros [_ ?]%Forall_cons].
Qed.

(** X12: [_find_zip_property] on a feature: without [properties] member it
    returns [None]; with one that is not an object it raises; otherwise it
    returns a key of the feature whose value is a string fully matching
    the pattern, [None] exactly when there is no such key, the first
    candidate name with such a value if there is one, and else the first
    key, in the order of the object, that has such a value. *)
Theorem find_zip_property_spec feat :
  (f_properties feat = PropsMissing → _find_zip_property feat = Ok None) ∧
  (f_properties feat = PropsNotDict → _find_zip_property feat = Raise AttributeError) ∧
  ∀ p, f_properties feat = PropsDict p →
    (∀ key, _find_zip_property feat = Ok (Some key) →
            ∃ v, (key, v) ∈ p ∧ is_zip_value v = true) ∧
    (_find_zip_property feat = Ok None ↔
     Forall (λ kv, is_zip_value kv.2 = false) p) ∧
    (∀ pre c post,
       candidates = pre ++ c :: post →
       is_zip_value (props_get p c (JStr [])) = true →
       Forall (λ c', is_zip_value (props_get p c' (JStr [])) = false) pre →
       _find_zip_property feat = Ok (Some c)) ∧
    (Forall (λ c, is_zip_value (props_get p c (JStr [])) = false) candidates →
     ∀ p1 key v p2,
       p = p1 ++ (key, v) :: p2 → is_zip_value v = true →
       Forall (λ kv, is_zip_value kv.2 = false) p1 →
       _find_zip_property feat = Ok (Some key)).
Proof.
  split; [intros Hp; unfold _find_zip_property; by rewrite Hp|].
  split; [intros Hp; unfold _find_zip_property; by rewrite Hp|].
  intros p Hp.
  destruct (find_candidate_first p candidates) as [Hfirst Hnone].
  split; [intros key; by apply _find_zip_property_sound|].
  unfold _find_zip_property. rewrite Hp. split; [|split].
  - destruct (find_candidate p candidates) as [k|] eqn:Hc.
    + split; [done|]. intros Hall. exfalso.
      apply find_candidate_Some in Hc as [_ Hz].
      apply props_get_zip in Hz as (v & Hin & Hz).
      rewrite Forall_forall in Hall. apply Hall in Hin. simpl in Hin. congruence.
    + rewrite <- find_item_None. split; [by intros [= ->] | by intros ->].
  - intros pre c post Hk Hc Hpre. by rewrite (Hfirst pre c post Hk Hc Hpre).
  - intros Hall p1 key v p2 Hpeq Hv Hp1. apply Hnone in Hall. rewrite Hall.
    f_equal. apply find_item_Some. by exists p1, v, p2.
Qed.

End DetectionMore.

(** ** [download_boundaries] *)

Section DownloadFacts.
Context {J : Type}.
Context (loads : pystr → fetched J) (dumps : J → pystr)
        (features_len : J → fetched nat).

(** X14: [download_boundaries] and its cache.  With a cache file it makes
    no request, leaves the files as they are and returns what the file
    parses to, failing again and again on a file that does not parse.
    Without one it makes exactly one request; if it returns [data], the
    cache holds the dump of [data] and every later call returns the parse
    of that dump without a request, which is [data] when parsing undoes
    dumping.  If it fails, the cache is absent, or holds the part of the
    dump written before the dump failed (the file is opened, and so
    created, before the dump), or holds the whole dump when the failure is
    that of the count of features it prints.  A cache left by a failed
    dump is what every later call parses, without a request. *)
Theorem download_boundaries_cache (response : fetched pystr) (write : write_outcome)
    (w : files) :
  (∀ text, cache_file w = Some text →
           download_boundaries loads dumps features_len response write w
           = (w, loads text)) ∧
  (cache_file w = None →
   requests (download_boundaries loads dumps features_len response write w).1
     = S (requests w)) ∧
  (∀ w' data,
     cache_file w = None →
     download_boundaries loads dumps features_len response write w = (w', Got data) →
     ∃ body, response = Got body ∧ loads body = Got data ∧ write = Written) ∧
  (∀ w' data,
     cache_file w = None →
     download_boundaries loads dumps features_len response write w = (w', Got data) →
     cache_file w' = Some (dumps data) ∧
     (∀ response' write',
        download_boundaries loads dumps features_len response' write' w'
        = (w', loads (dumps data))) ∧
     ((∀ d, loads (dumps d) = Got d) →
      ∀ response' write',
        download_boundaries loads dumps features_len response' write' w'
        = (w', Got data))) ∧
  (∀ w' e,
     cache_file w = None →
     download_boundaries loads dumps features_len response write w = (w', Failed e) →
     cache_file w' = None ∨
     (∃ body data written,
        response = Got body ∧ loads body = Got data ∧ write = Interrupted written ∧
        e = OSError ∧ cache_file w' = Some (take written (dumps data))) ∨
     (∃ body data,
        response = Got body ∧ loads body = Got data ∧ write = Written ∧
        features_len data = Failed e ∧ cache_file w' = Some (dumps data))) ∧
  (∀ body data written,
     cache_file w = None → response = Got body → loads body = Got data →
     write = Interrupted written →
     ∃ w',
       download_boundaries loads dumps features_len response write w
       = (w', Failed OSError) ∧
       cache_file w' = Some (take written (dumps data)) ∧
       ∀ response' write',
         download_boundaries loads dumps features_len response' write' w'
         = (w', loads (take written (dumps data)))).
Proof.
  unfold download_boundaries. split; [intros text ->; done|].
  split; [|split; [|split; [|split]]].
  - intros ->. destruct response as [body|e]; [|done].
    destruct (loads body) as [data|e]; [|done]. destruct write; [done|done|].
    by destruct (features_len data).
  - intros w' data ->. destruct response as [body|e]; [|done].
    destruct (loads body) as [data'|e] eqn:Hl; [|done]. destruct write; [done|done|].
    destruct (features_len data'); [|done]. intros [= <- <-]. by exists body.
  - intros w' data ->. destruct response as [body|e]; [|done].
    destruct (loads body) as [data'|e]; [|done]. destruct write; [done|done|].
    destruct (features_len data'); [|done]. intros [= <- <-]. simpl.
    split; [done|]. split; [done|]. by intros ->.
  - intros w' e ->. destruct response as [body|e0]; [|intros [= <- _]; by left].
    destruct (loads body) as [data|e0] eqn:Hl; [|intros [= <- _]; by left].
    destruct write as [|written|]; [intros [= <- _]; by left| |].
    + intros [= <- <-]. right. left. by exists body, data, written.
    + destruct (features_len data) as [n|e0] eqn:Hf; [done|].
      intros [= <- <-]. right. right. by exists body, data.
  - intros body data written -> -> Hl ->. rewrite Hl. eexists. split; [done|]. done.
Qed.

End DownloadFacts.

(** ** The further properties on the test data *)

Section FurtherWitnesses.
Local Existing Instance ascii_tables.
Import Scenario Cases.

Lemma extract_row_opportunity_type_witness :
  ∃ r, _extract_row now (dated " Jan 5 " "Jan 5 9:00 AM") = Ok r ∧
       opportunity_type r ∈ OPP_TYPE_CLASSES.*2.
Proof.
  eexists. split; [reflexivity|].
  eapply proj1. eapply (extract_row_opportunity_type now (dated " Jan 5 " "Jan 5 9:00 AM")).
  reflexivity.
Defined.

Lemma extract_row_date_element_witness :
  ∃ r, _extract_row now (dated " Jan 5 " "ongoing") = Ok r ∧
  ∃ text, date_el_inner_text (dated " Jan 5 " "ongoing") = Ok text ∧
     (strip text ≠ [] →
      date r = Some (strip text) ∧
      ∀ cell, ongoing_fallback (Some (strip text)) cell = Ok (Some (strip text))) ∧
     (strip text = [] →
      ∃ raw, time_cell_inner_text (dated " Jan 5 " "ongoing") = Ok raw ∧
             date r = if contains (lit "ongoing") (lower (strip raw))
                      then Some (lit "Ongoing") else Some []).
Proof.
  eexists. split; [reflexivity|].
  eapply proj1. eapply (extract_row_date_element now (dated " Jan 5 " "ongoing") _ 0);
    reflexivity.
Defined.

(** A date element with text wins over "ongoing" in the cell; a blank one
    gives ["Ongoing"] or the empty string; priority of the type markers. *)
Example cases_dated :
  (let* r := _extract_row now (dated " Jan 5 " "Jan 5 ongoing") in Ok (date r),
   let* r := _extract_row now (dated "  " "ONGOING") in Ok (date r),
   let* r := _extract_row now (dated "  " "9:00 AM") in Ok (date r),
   let* r := _extract_row now (dated "" "") in Ok (opportunity_type r))
  = (Ok (Some (lit "Jan 5")), Ok (Some (lit "Ongoing")), Ok (Some []),
     Ok (lit "Special Event")).
Proof. vm_compute. reflexivity. Qed.

Lemma generate_html_figures_witness :
  ∃ html, generate_html geojson [] = Ok html ∧
          total_mapped html = sum_list (j_count <$> geojson).
Proof.
  eexists. split; [reflexivity|].
  eapply proj1. eapply (generate_html_figures geojson []). reflexivity.
Defined.

Example cases_figures :
  (let* html := generate_html geojson [rec1] in
   Ok (total_mapped html, total_zips html, virtual_count html, max_count html))
  = Ok (7, 2, 1, 5).
Proof. vm_compute. reflexivity. Qed.

Lemma pipeline_conservation_witness :
  ∃ out html,
    build_choropleth_geojson (group_by_zip rows_e2e).1 boundaries_e2e = Ok out ∧
    generate_html (features out) (group_by_zip rows_e2e).2 = Ok html ∧
    total_mapped html
    + length (records_outside (j_zipcode <$> features out) (group_by_zip rows_e2e).1)
    + virtual_count html = length rows_e2e ∧
    total_zips html + default 0 (fst <$> warning out) = size (group_by_zip rows_e2e).1.
Proof.
  eexists _, _. split; [reflexivity|]. split; [reflexivity|].
  apply (pipeline_conservation rows_e2e boundaries_e2e); [reflexivity | reflexivity |].
  vm_compute. apply NoDup_singleton.
Defined.

(** A download whose dump fails after its first character leaves a cache
    that later calls read instead of downloading again. *)
Example cases_truncated_cache :
  let loads (s : pystr) :=
    if decide (s = lit "{}") then Got 0 else Failed JSONDecodeError in
  let dumps (_ : nat) := lit "{}" in
  let features_len (_ : nat) := Got 0 in
  let w := {| cache_file := None; requests := 0 |} in
  let r := download_boundaries loads dumps features_len (Got (lit "{}")) (Interrupted 1) w in
  r = ({| cache_file := Some (lit "{"); requests := 1 |}, Failed OSError) ∧
  download_boundaries loads dumps features_len (Got (lit "{}")) Written r.1
  = (r.1, Failed JSONDecodeError).
Proof. vm_compute. done. Qed.

(** A run that starts, finds two opportunities and saves them; one whose
    browser fails to launch; one that is interrupted while scraping. *)
Example cases_run :
  let opp now' := {| title := []; organization := []; location := [];
                     date := None; time := None; duration := None;
                     datetime_iso := None; distance := None;
                     opportunity_type := lit "Training"; opportunity_url := None;
                     opportunity_id := None; organization_url := None;
                     scraped_at := now' |} in
  let w scraped launched :=
    {| playwright_start := Returns tt; chromium_launch := launched;
       new_context := Returns tt; new_page := Returns tt;
       scrape_search_results := scraped; save_results := λ _, Returns tt;
       browser_close := Returns tt; playwright_stop := Returns tt |} in
  run (w (Returns [opp now; opp []]) (Returns tt))
    = ([PlaywrightStart; Launch; NewContext; NewPage; ScrapeSearchResults;
        SaveResults 2; BrowserClose; PlaywrightStop], Returns tt) ∧
  run (w (Returns []) (Raises (Failure (PlaywrightError []))))
    = ([PlaywrightStart; Launch; PlaywrightStop],
       Raises (Failure (PlaywrightError []))) ∧
  run (w (Raises KeyboardInterrupt) (Returns tt))
    = ([PlaywrightStart; Launch; NewContext; NewPage; ScrapeSearchResults;
        BrowserClose; PlaywrightStop], Returns tt).
Proof. vm_compute. done. Qed.

End FurtherWitnesses.

(** ** How the loader ended *)

Section LoaderMore.
Context {P : Type} (ops : page_ops P).

Lemma load_loop_exit n click_num st e st' :
  load_loop ops n click_num st = (Ok e, st') →
  match e with
  | NoLoadMoreButton => ∃ j, j < n ∧ clicks st'.2 = clicks st.2 + j
  | NoNewRows c =>
      click_num ≤ c < click_num + n ∧ clicks st'.2 = clicks st.2 + (c - click_num) + 1
  | RangeExhausted => clicks st'.2 = clicks st.2 + n
  end.
Proof.
  unfold clicks.
  revert click_num st. induction n as [|n IH]; intros click_num [p trace].
  - simpl. unfold pret. intros [= <- <-]. simpl. lia.
  - simpl. unfold pbind, perform, returns, pret, sleep. simpl.
    destruct (result_row_count ops p) as [[count_before|e0] p1]; simpl; [|done].
    destruct (load_more_count ops p1) as [[c|e0] p2]; simpl; [|done].
    destruct (c =? 0); simpl.
    { intros [= <- <-]. exists 0. simpl. rewrite !count_occ_app. simpl. lia. }
    destruct (load_more_is_visible ops p2) as [[[|]|e0] p3]; simpl; [| |done].
    2:{ intros [= <- <-]. exists 0. simpl. rewrite !count_occ_app. simpl. lia. }
    destruct (load_more_scroll ops p3) as [[[]|e0] p4]; simpl; [|done].
    destruct (load_more_click ops p4) as [[[]|e0] p5]; simpl; [|done].
    destruct (wait_for_more_rows ops count_before p5) as [[[]|e0] p6]; simpl.
    + intros Hloop. apply IH in Hloop. simpl in Hloop.
      rewrite !count_occ_app in Hloop. simpl in Hloop.
      destruct e as [|c'|].
      * destruct Hloop as (j & Hj & Hc). exists (S j). split; lia.
      * lia.
      * lia.
    + intros [= <- <-]. simpl. rewrite !count_occ_app. simpl. lia.
Qed.

End LoaderMore.

(** X16: how [_load_all_results] ended tells how often it clicked: after
    "No new rows after click #c" it clicked exactly [c] times, with
    [1 ≤ c ≤ MAX_LOAD_MORE_CLICKS]; when the loop ran to its end it clicked
    exactly [MAX_LOAD_MORE_CLICKS] times; when it found no control, or an
    invisible one, it clicked fewer times than that. *)
Theorem load_all_results_exit {P : Type} (ops : page_ops P) (p : P) e final st' :
  _load_all_results ops (p, []) = (Ok (e, final), st') →
  match e with
  | NoLoadMoreButton => clicks st'.2 < MAX_LOAD_MORE_CLICKS
  | NoNewRows c => 1 ≤ c ≤ MAX_LOAD_MORE_CLICKS ∧ clicks st'.2 = c
  | RangeExhausted => clicks st'.2 = MAX_LOAD_MORE_CLICKS
  end.
Proof.
  unfold _load_all_results, pbind, perform, pret.
  destruct (load_loop ops MAX_LOAD_MORE_CLICKS 1 (p, [])) as [[e'|e'] [q trace]] eqn:Hloop;
    [|done].
  apply load_loop_exit in Hloop. cbn [fst snd] in *.
  destruct (result_row_count ops q) as [[n|e0] q']; [|done]. intros [= <- <- <-].
  cbn [fst snd]. rewrite clicks_snoc. change (clicks [RowCount]) with 0.
  change (clicks []) with 0 in Hloop.
  destruct e' as [|c|]; [destruct Hloop as (j & Hj & Hc)| |]; lia.
Qed.

Lemma load_all_results_exit_witness :
  match NoNewRows 1 with
  | NoLoadMoreButton => True
  | NoNewRows c =>
      1 ≤ c ≤ MAX_LOAD_MORE_CLICKS ∧
      clicks (_load_all_results Scenario.stalled (30, [])).2.2 = c
  | RangeExhausted => True
  end.
Proof.
  apply (load_all_results_exit Scenario.stalled 30 (NoNewRows 1) 30
           (_load_all_results Scenario.stalled (30, [])).2).
  reflexivity.
Defined.

(** ** The identifier of the stored URL *)

Lemma ID_RE_match_at_base (h : pystr) i :
  i < length BASE_URL → ID_RE_match_at (BASE_URL ++ h) i = None.
Proof.
  intros Hi. change (length BASE_URL) with 29 in Hi.
  do 29 (destruct i as [|i]; [reflexivity|]). lia.
Qed.

Lemma ID_RE_match_at_shift (h : pystr) i :
  ID_RE_match_at (BASE_URL ++ h) (length BASE_URL + i) = ID_RE_match_at h i.
Proof. unfold ID_RE_match_at. by rewrite drop_app_add. Qed.

(** X15: the identifier does not depend on which form of the link it is
    read from: [_extract_id_from_href] gives the same answer on the href
    of the anchor and on the URL that [_extract_row] stores for it. *)
Theorem extract_id_of_resolved_url (href : option pystr) :
  _extract_id_from_href (resolve_url href) = _extract_id_from_href href.
Proof.
  destruct href as [h|]; [|done]. unfold resolve_url.
  destruct (truthy h && startswith h (lit "/")) eqn:Hroot; [|done].
  apply andb_true_iff in Hroot as [Hh _]. destruct h as [|c h]; [done|].
  rewrite !extract_id_from_href_nonempty; [|done|by intros [_ ?]%app_eq_nil].
  apply option_eq. intros id. rewrite !ID_RE_search_leftmost. split.
  - intros (i & Hat & Hleft).
    apply ID_RE_match_at_spec in Hat.
    destruct (decide (i < length BASE_URL)) as [Hlt|Hge].
    { by rewrite ID_RE_match_at_base in Hat. }
    replace i with (length BASE_URL + (i - length BASE_URL)) in Hat by lia.
    rewrite ID_RE_match_at_shift in Hat. exists (i - length BASE_URL).
    split; [by apply ID_RE_match_at_spec|].
    intros j id' Hj Hat'. apply (Hleft (length BASE_URL + j) id'); [lia|].
    apply ID_RE_match_at_spec. rewrite ID_RE_match_at_shift.
    by apply ID_RE_match_at_spec.
  - intros (i & Hat & Hleft).
    exists (length BASE_URL + i). split.
    + apply ID_RE_match_at_spec. rewrite ID_RE_match_at_shift.
      by apply ID_RE_match_at_spec.
    + intros j id' Hj Hat'. apply ID_RE_match_at_spec in Hat'.
      destruct (decide (j < length BASE_URL)) as [Hlt|Hge].
      { by rewrite ID_RE_match_at_base in Hat'. }
      replace j with (length BASE_URL + (j - length BASE_URL)) in Hat' by lia.
      rewrite ID_RE_match_at_shift in Hat'.
      apply (Hleft (j - length BASE_URL) id'); [lia|]. by apply ID_RE_match_at_spec.
Qed.
